(** * Egalitarian (max-min) division: the program built by [egalitarian_division]

    A shallow embedding of [src/main.py].  The function builds a linear
    program with cvxpy, hands it to a solver and interprets the solver's
    answer.  Numbers are exact rationals ([Q]); the library is a parameter,
    a record [cp : cvxpy] of the two library calls that can fail, and what
    a theorem assumes of the solver is one of the contracts [well_shaped],
    [sound_feasible], [sound_optimal] and [truthful], stated on the program
    of the call and the answer of a solve that completed. *)

From Stdlib Require Import String ZArith QArith Qabs Qminmax Lqa Lia Bool Arith List.
Import ListNotations.
Local Open Scope Q_scope.

(** ** Exceptions and the result of a call *)

Inductive exn : Type :=
| ValueError (msg : string)
| IndexError (msg : string)
| SolverError (msg : string).   (* cvxpy.error.SolverError *)

Inductive outcome (A : Type) : Type :=
| Returns (a : A)
| Raises (e : exn).
Arguments Returns {A} a.
Arguments Raises {A} e.

Definition bind {A B : Type} (c : outcome A) (k : A -> outcome B) : outcome B :=
  match c with
  | Returns a => k a
  | Raises e => Raises e
  end.

Notation "x <- c ;; k" := (bind c (fun x => k))
  (at level 61, c at next level, right associativity).

(** [[f(x) for x in xs]] where [f] may raise. *)
Fixpoint comprehension {A B : Type} (f : A -> outcome B) (xs : list A)
  : outcome (list B) :=
  match xs with
  | [] => Returns []
  | x :: xs' =>
      y <- f x ;;
      ys <- comprehension f xs' ;;
      Returns (y :: ys)
  end.

(** ** numpy arrays *)

(** A 2-D array: its [shape] and its rows.  The shape is kept apart from
    the rows because an array with no rows still has a column count. *)
Record ndarray : Type := mk_ndarray {
  shape : nat * nat;
  rows : list (list Q)
}.

Definition wf_ndarray (a : ndarray) : Prop :=
  length (rows a) = fst (shape a) /\
  Forall (fun r => length r = snd (shape a)) (rows a).

Definition wf_ndarrayb (a : ndarray) : bool :=
  Nat.eqb (length (rows a)) (fst (shape a)) &&
  forallb (fun r => Nat.eqb (length r) (snd (shape a))) (rows a).

(** [np.array([[...], ...])] on a non-empty rectangular literal. *)
Definition np_array (rs : list (list Q)) : ndarray :=
  mk_ndarray (length rs, length (hd [] rs)) rs.

(** [a[i]] on a 2-D array. *)
Definition np_getitem (a : ndarray) (i : nat) : outcome (list Q) :=
  match nth_error (rows a) i with
  | Some r => Returns r
  | None => Raises (IndexError "index out of bounds")
  end.

(** [x * y] on 1-D arrays, with numpy's broadcasting of a length-1 operand. *)
Fixpoint zip_mul (x y : list Q) : list Q :=
  match x, y with
  | a :: x', b :: y' => a * b :: zip_mul x' y'
  | _, _ => []
  end.

Definition np_multiply (x y : list Q) : outcome (list Q) :=
  if Nat.eqb (length x) (length y) then Returns (zip_mul x y)
  else match x, y with
       | [a], _ => Returns (map (fun b => a * b) y)
       | _, [b] => Returns (map (fun a => a * b) x)
       | _, _ => Raises (ValueError "operands could not be broadcast together")
       end.

(** [np.sum] of a 1-D array.  Addition on [Q] is associative and
    commutative up to [==], so the order of the fold is immaterial. *)
Definition np_sum (x : list Q) : Q := fold_right Qplus 0 x.

(** [range(n)] *)
Definition range (n : nat) : list nat := seq 0 n.

(** ** cvxpy: expressions, constraints, problems *)

(** The two [cp.Variable] objects of the program. *)
Inductive variable : Type :=
| allocations    (* cp.Variable((n_agents, m_resources)) *)
| min_utility.   (* cp.Variable() *)

Inductive expr : Type :=
| EVar (v : variable)
| EConst (c : Q)                (* a Python number promoted to a constant *)
| EConstRow (r : list Q)        (* a 1-D numpy array promoted to a constant *)
| EIndex (e : expr) (i : nat)   (* e[i] *)
| EMultiply (a b : expr)        (* cp.multiply(a, b) *)
| ESum (e : expr)               (* cp.sum(e) *)
| ESumAxis0 (e : expr).         (* cp.sum(e, axis=0) *)

Inductive constraint : Type :=
| CGe (a b : expr)   (* a >= b *)
| CLe (a b : expr)   (* a <= b *)
| CEq (a b : expr).  (* a == b *)

Inductive objective : Type :=
| Maximize (e : expr).

Record Problem : Type := mk_Problem {
  alloc_shape : nat * nat;          (* shape of the [allocations] variable *)
  goal : objective;
  constraints : list constraint
}.

(** An assignment of values to the two variables. *)
Record assignment : Type := mk_assignment {
  alloc_value : ndarray;
  floor_value : Q
}.

(** Values of expressions: a scalar, a 1-D array or a 2-D array. *)
Inductive value : Type :=
| VScalar (q : Q)
| VRow (r : list Q)
| VMat (a : ndarray).

Definition column (a : ndarray) (j : nat) : list Q :=
  map (fun r => nth j r 0) (rows a).

Definition sum_axis0 (a : ndarray) : list Q :=
  map (fun j => np_sum (column a j)) (range (snd (shape a))).

Fixpoint eval (s : assignment) (e : expr) : option value :=
  match e with
  | EVar allocations => Some (VMat (alloc_value s))
  | EVar min_utility => Some (VScalar (floor_value s))
  | EConst c => Some (VScalar c)
  | EConstRow r => Some (VRow r)
  | EIndex e' i =>
      match eval s e' with
      | Some (VMat a) => option_map VRow (nth_error (rows a) i)
      | _ => None
      end
  | EMultiply a b =>
      match eval s a, eval s b with
      | Some (VRow x), Some (VRow y) =>
          if Nat.eqb (length x) (length y) then Some (VRow (zip_mul x y)) else None
      | Some (VScalar x), Some (VScalar y) => Some (VScalar (x * y))
      | _, _ => None
      end
  | ESum e' =>
      match eval s e' with
      | Some (VScalar x) => Some (VScalar x)
      | Some (VRow x) => Some (VScalar (np_sum x))
      | Some (VMat a) => Some (VScalar (np_sum (map np_sum (rows a))))
      | None => None
      end
  | ESumAxis0 e' =>
      match eval s e' with
      | Some (VMat a) => Some (VRow (sum_axis0 a))
      | _ => None
      end
  end.

(** The entries of a value, in row-major order. *)
Definition entries (v : value) : list Q :=
  match v with
  | VScalar q => [q]
  | VRow r => r
  | VMat a => concat (rows a)
  end.

(** Pairs of corresponding entries of the two sides of a constraint; a
    scalar side is broadcast against the other side. *)
Definition paired (x y : value) : option (list (Q * Q)) :=
  match x, y with
  | VScalar a, _ => Some (map (fun b => (a, b)) (entries y))
  | _, VScalar b => Some (map (fun a => (a, b)) (entries x))
  | VRow r1, VRow r2 =>
      if Nat.eqb (length r1) (length r2) then Some (combine r1 r2) else None
  | VMat a1, VMat a2 =>
      if Nat.eqb (fst (shape a1)) (fst (shape a2)) &&
         Nat.eqb (snd (shape a1)) (snd (shape a2))
      then Some (combine (concat (rows a1)) (concat (rows a2))) else None
  | _, _ => None
  end.

Definition sides (c : constraint) : expr * expr :=
  match c with
  | CGe a b => (a, b)
  | CLe a b => (a, b)
  | CEq a b => (a, b)
  end.

(** One scalar comparison, satisfied up to the tolerance [eps]. *)
Definition holds_at (eps : Q) (c : constraint) (p : Q * Q) : Prop :=
  match c with
  | CGe _ _ => snd p <= fst p + eps
  | CLe _ _ => fst p <= snd p + eps
  | CEq _ _ => fst p <= snd p + eps /\ snd p <= fst p + eps
  end.

Definition satisfies (eps : Q) (s : assignment) (c : constraint) : Prop :=
  match eval s (fst (sides c)), eval s (snd (sides c)) with
  | Some x, Some y =>
      match paired x y with
      | Some ps => Forall (holds_at eps c) ps
      | None => False
      end
  | _, _ => False
  end.

(** The value of the objective under an assignment. *)
Definition objective_value (p : Problem) (s : assignment) : option Q :=
  match goal p with
  | Maximize e =>
      match eval s e with
      | Some (VScalar q) => Some q
      | _ => None
      end
  end.

(** [s] gives the variables values of their declared shapes and meets every
    constraint up to [eps]. *)
Definition feasible_within (eps : Q) (p : Problem) (s : assignment) : Prop :=
  shape (alloc_value s) = alloc_shape p /\
  wf_ndarray (alloc_value s) /\
  Forall (satisfies eps s) (constraints p).

Definition feasible (p : Problem) (s : assignment) : Prop :=
  feasible_within 0 p s.

(** No exactly feasible assignment beats [s] by more than [eps]. *)
Definition optimal_within (eps : Q) (p : Problem) (s : assignment) : Prop :=
  feasible_within eps p s /\
  forall s' v v',
    feasible p s' ->
    objective_value p s = Some v ->
    objective_value p s' = Some v' ->
    v' <= v + eps.

Definition bounded_above (p : Problem) : Prop :=
  exists B : Q, forall s v,
    feasible p s -> objective_value p s = Some v -> v <= B.

(** ** The library *)

(** What a completed [problem.solve()] leaves behind. *)
Record SolverOutput : Type := mk_SolverOutput {
  solver_status : string;       (* problem.status *)
  primal : assignment           (* the .value fields of the variables *)
}.

(** The two calls into cvxpy whose outcome the source does not control.
    Creating the allocation variable may reject the shape, and
    [problem.solve()] may raise instead of reporting a status (a solver
    that breaks down, data it refuses); either exception leaves
    [egalitarian_division] as it is. *)
Record cvxpy : Type := mk_cvxpy {
  cp_Variable : nat * nat -> outcome unit;     (* cp.Variable(shape) *)
  cp_solve : Problem -> outcome SolverOutput   (* problem.solve() *)
}.

(** ** The function *)

Record Result : Type := mk_Result {
  r_status : string;            (* result['status'] *)
  r_min_utility : Q;            (* result['min_utility'] *)
  r_allocations : ndarray;      (* result['allocations'] *)
  r_utilities : list Q          (* result['utilities'] *)
}.

Definition success_statuses : list string :=
  ["optimal"%string; "optimal_inaccurate"%string].

Definition is_success (st : string) : bool :=
  existsb (String.eqb st) success_statuses.

Definition error_message : string :=
  "Fair division impossible with given valuations"%string.

(** The constraint appended in iteration [i] of the loop. *)
Definition agent_constraint (valuation_matrix : ndarray) (i : nat)
  : outcome constraint :=
  v_i <- np_getitem valuation_matrix i ;;
  let agent_utility := ESum (EMultiply (EIndex (EVar allocations) i) (EConstRow v_i)) in
  Returns (CLe (EVar min_utility) agent_utility).

(** Lines 60-74: the program handed to the solver. *)
Definition build_problem (valuation_matrix : ndarray) : outcome Problem :=
  let '(n_agents, m_resources) := shape valuation_matrix in
  let constraints0 :=
    [ CGe (EVar allocations) (EConst 0);
      CLe (EVar allocations) (EConst 1);
      CEq (ESumAxis0 (EVar allocations)) (EConst 1) ] in
  appended <- comprehension (agent_constraint valuation_matrix) (range n_agents) ;;
  Returns (mk_Problem (n_agents, m_resources)
                      (Maximize (EVar min_utility))
                      (constraints0 ++ appended)).

(** Lines 84-87: one entry of the [utilities] array. *)
Definition agent_utility_value (allocations_value valuation_matrix : ndarray)
    (i : nat) : outcome Q :=
  a_i <- np_getitem allocations_value i ;;
  v_i <- np_getitem valuation_matrix i ;;
  prod <- np_multiply a_i v_i ;;
  Returns (np_sum prod).

Definition egalitarian_division (cp : cvxpy)
    (valuation_matrix : ndarray) : outcome Result :=
  created <- cp_Variable cp (shape valuation_matrix) ;;   (* line 61 *)
  problem <- build_problem valuation_matrix ;;            (* lines 64-74 *)
  out <- cp_solve cp problem ;;                           (* line 75 *)
  if negb (is_success (solver_status out)) then
    Raises (ValueError error_message)
  else
    let n_agents := fst (shape valuation_matrix) in
    utilities <- comprehension
                   (agent_utility_value (alloc_value (primal out)) valuation_matrix)
                   (range n_agents) ;;
    Returns (mk_Result (solver_status out)
                       (floor_value (primal out))
                       (alloc_value (primal out))
                       utilities).

(** ** The program as the specification words it *)

(** Entry [(i, j)] of a 2-D array. *)
Definition entry (a : ndarray) (i j : nat) : Q :=
  nth j (nth i (rows a) []) 0.

(** [big_sum f k] is f(0) + ... + f(k-1). *)
Fixpoint big_sum (f : nat -> Q) (k : nat) : Q :=
  match k with
  | O => 0
  | S k' => big_sum f k' + f k'
  end.

(** The total of column [j] over the agents. *)
Definition column_total (a : ndarray) (j : nat) : Q :=
  big_sum (fun i => entry a i j) (fst (shape a)).

(** The utility of agent [i] under allocation [a] and valuations [v]. *)
Definition utility (a v : ndarray) (i : nat) : Q :=
  big_sum (fun j => entry a i j * entry v i j) (snd (shape v)).

(** The total share of agent [i]: the sum of row [i]. *)
Definition row_total (a : ndarray) (i : nat) : Q :=
  big_sum (fun j => entry a i j) (snd (shape a)).

(** The least element of a list (0 for the empty list). *)
Definition minimum (l : list Q) : Q :=
  match l with
  | [] => 0
  | x :: xs => fold_right Qmin x xs
  end.

Record spec_program (eps : Q) (v : ndarray) (s : assignment) : Prop := {
  sp_bounds : forall i j, (i < fst (shape v))%nat -> (j < snd (shape v))%nat ->
      0 <= entry (alloc_value s) i j + eps /\ entry (alloc_value s) i j <= 1 + eps;
  sp_columns : forall j, (j < snd (shape v))%nat ->
      column_total (alloc_value s) j <= 1 + eps /\
      1 <= column_total (alloc_value s) j + eps;
  sp_floor : forall i, (i < fst (shape v))%nat ->
      floor_value s <= utility (alloc_value s) v i + eps
}.

(** The program with tolerance 0. *)
Record exact_program (v : ndarray) (s : assignment) : Prop := {
  ep_bounds : forall i j, (i < fst (shape v))%nat -> (j < snd (shape v))%nat ->
      0 <= entry (alloc_value s) i j <= 1;
  ep_columns : forall j, (j < snd (shape v))%nat ->
      column_total (alloc_value s) j == 1;
  ep_floor : forall i, (i < fst (shape v))%nat ->
      floor_value s <= utility (alloc_value s) v i
}.

(** Valid input: at least one agent and one resource, no negative entry. *)
Definition nonnegative (v : ndarray) : Prop :=
  Forall (Forall (fun q => 0 <= q)) (rows v).

Definition valid_valuation (v : ndarray) : Prop :=
  wf_ndarray v /\ (1 <= fst (shape v))%nat /\ (1 <= snd (shape v))%nat /\
  nonnegative v.

Definition nonnegativeb (v : ndarray) : bool :=
  forallb (forallb (fun q => Qle_bool 0 q)) (rows v).

Definition valid_valuationb (v : ndarray) : bool :=
  wf_ndarrayb v && Nat.leb 1 (fst (shape v)) && Nat.leb 1 (snd (shape v)) &&
  nonnegativeb v.

(** ** The program and the utilities in closed form *)

(** The constraint that iteration [i] appends, for a well-formed matrix. *)
Definition floor_constraint (v : ndarray) (i : nat) : constraint :=
  CLe (EVar min_utility)
      (ESum (EMultiply (EIndex (EVar allocations) i)
                       (EConstRow (nth i (rows v) [])))).

Definition fixed_constraints : list constraint :=
  [ CGe (EVar allocations) (EConst 0);
    CLe (EVar allocations) (EConst 1);
    CEq (ESumAxis0 (EVar allocations)) (EConst 1) ].

Definition the_program (v : ndarray) : Problem :=
  mk_Problem (shape v) (Maximize (EVar min_utility))
             (fixed_constraints ++ map (floor_constraint v) (range (fst (shape v)))).

(** What lines 84-87 compute when no index is out of range. *)
Definition utilities_of (a v : ndarray) : list Q :=
  map (fun i => np_sum (zip_mul (nth i (rows a) []) (nth i (rows v) [])))
      (range (fst (shape v))).

(** ** The contract of the solver *)

(** The solver is an external collaborator.  What is assumed of it is said
    per call, on the program it was given and the answer it gave, when it
    gave one. *)

(** On success the variables hold values of their declared shapes. *)
Definition well_shaped (p : Problem) (out : SolverOutput) : Prop :=
  is_success (solver_status out) = true ->
  shape (alloc_value (primal out)) = alloc_shape p /\
  wf_ndarray (alloc_value (primal out)).

(** On success the values meet the constraints up to [eps]. *)
Definition sound_feasible (eps : Q) (p : Problem) (out : SolverOutput) : Prop :=
  is_success (solver_status out) = true -> feasible_within eps p (primal out).

(** On success the values are optimal up to [eps]. *)
Definition sound_optimal (eps : Q) (p : Problem) (out : SolverOutput) : Prop :=
  is_success (solver_status out) = true -> optimal_within eps p (primal out).

(** The statuses infeasible and unbounded, when reported, are true of the
    program. *)
Definition truthful (p : Problem) (out : SolverOutput) : Prop :=
  (solver_status out = "infeasible"%string -> ~ exists s, feasible p s) /\
  (solver_status out = "unbounded"%string -> ~ bounded_above p).

(** A contract stated on the program that [build_problem] returns and on
    the answer of a solve that completed. *)
Definition on_built_program (P : Problem -> SolverOutput -> Prop)
    (cp : cvxpy) (v : ndarray) : Prop :=
  forall p out,
    build_problem v = Returns p -> cp_solve cp p = Returns out -> P p out.


(** [problem.status] as line 77 would read it: nothing when [solve()] did
    not complete. *)
Definition reported_status (o : outcome SolverOutput) : option string :=
  match o with
  | Returns out => Some (solver_status out)
  | Raises _ => None
  end.

(** ** Constructions used in the proofs *)

(** The allocation that hands every resource to the first agent. *)
Definition all_to_first (n m : nat) : ndarray :=
  mk_ndarray (n, m) (repeat 1 m :: repeat (repeat 0 m) (n - 1)).

(** The array with entry [f i j] at [(i, j)]. *)
Definition tabulate (n m : nat) (f : nat -> nat -> Q) : ndarray :=
  mk_ndarray (n, m) (map (fun i => map (f i) (range m)) (range n)).

(** The number [n] as a rational. *)
Definition Qnat (n : nat) : Q := inject_Z (Z.of_nat n).

(** Column [j] after every entry has been raised by [eps]. *)
Definition lifted_column (eps : Q) (a : ndarray) (j : nat) : Q :=
  big_sum (fun i => entry a i j + eps) (fst (shape a)).

(** Raise every entry by [eps], then rescale each column to total 1. *)
Definition repair (eps : Q) (a : ndarray) : ndarray :=
  tabulate (fst (shape a)) (snd (shape a))
           (fun i j => (entry a i j + eps) / lifted_column eps a j).

(** The factor by which the repair can shrink a utility. *)
Definition slack_factor (eps : Q) (n : nat) : Q := 1 + (Qnat n + 1) * eps.

(** The tolerance within which the floor and the least utility agree when
    the solver is accurate to [eps]: it is 0 when [eps] is 0. *)
Definition floor_tolerance (eps : Q) (n : nat) (floor : Q) : Q :=
  eps * (1 + (Qnat n + 1) * (floor + eps)).

(** Agent [k] keeps the share [1 - t] of what it holds and hands the
    share [c] of it to each of the other agents. *)
Definition transfer (a : ndarray) (k : nat) (t c : Q) : ndarray :=
  tabulate (fst (shape a)) (snd (shape a))
           (fun i j => if Nat.eqb i k then (1 - t) * entry a k j
                       else entry a i j + c * entry a k j).

(** Every valuation is strictly positive. *)
Definition positive (v : ndarray) : Prop :=
  forall i j, (i < fst (shape v))%nat -> (j < snd (shape v))%nat ->
              0 < entry v i j.

(** The matrix [v] with entry [(i, j)] raised by [d]. *)
Definition raise_entry (v : ndarray) (i j : nat) (d : Q) : ndarray :=
  tabulate (fst (shape v)) (snd (shape v))
           (fun k l => if Nat.eqb k i && Nat.eqb l j
                       then entry v k l + d else entry v k l).

(** ** Allocations, shares and rescaled valuations *)

(** An allocation of the resources of [v]: every entry in [0,1] and every
    resource handed out exactly once. *)
Definition valid_allocation (v a : ndarray) : Prop :=
  shape a = shape v /\ wf_ndarray a /\
  (forall i j, (i < fst (shape v))%nat -> (j < snd (shape v))%nat ->
               0 <= entry a i j <= 1) /\
  (forall j, (j < snd (shape v))%nat -> column_total a j == 1).

(** Every agent receives the share 1/n of every resource. *)
Definition equal_split (n m : nat) : ndarray :=
  tabulate n m (fun _ _ => / Qnat n).

(** The least, over the agents, of an n-th of the agent's total valuation. *)
Definition proportional_floor (v : ndarray) : Q :=
  minimum (map (fun i => row_total v i / Qnat (fst (shape v)))
               (range (fst (shape v)))).

(** [c * valuation_matrix] *)
Definition scale (c : Q) (v : ndarray) : ndarray :=
  mk_ndarray (shape v) (map (map (Qmult c)) (rows v)).

(** The total of all entries, agent by agent. *)
Definition grand_total (a : ndarray) : Q :=
  big_sum (fun i => row_total a i) (fst (shape a)).

(** ** Reference inputs and mock solvers *)

(** The check cvxpy makes on the shape of a new variable: no dimension may
    be 0.  cvxpy is not part of the source; the mocks below behave this
    way, and a theorem that needs it takes it as a hypothesis. *)
Definition positive_shape (sh : nat * nat) : outcome unit :=
  if Nat.eqb (fst sh) 0 || Nat.eqb (snd sh) 0
  then Raises (ValueError "Invalid dimensions")
  else Returns tt.

(** A library whose solve completes with the answer [f problem]. *)
Definition mock (f : Problem -> SolverOutput) : cvxpy :=
  mk_cvxpy positive_shape (fun p => Returns (f p)).

(** A library whose solver breaks down: [solve()] raises. *)
Definition crashing : cvxpy :=
  mk_cvxpy positive_shape
           (fun _ => Raises (SolverError "Solver failed. Try another solver."%string)).

(** Scenario 3 of the docstring. *)
Definition unequal : ndarray := np_array [[100; 100]; [1; 1]].

Definition unequal_optimum : assignment :=
  mk_assignment (np_array [[1#101; 1#101]; [100#101; 100#101]]) (200#101).

(** A solver that answers every call with the optimum of scenario 3. *)
Definition scenario3_solver (_ : Problem) : SolverOutput :=
  mk_SolverOutput "optimal" unequal_optimum.

(** What the call returns in scenario 3 with the mock solver. *)
Definition scenario3_result : Result :=
  mk_Result "optimal" (200#101) (alloc_value unequal_optimum)
            [20200#10201; 20200#10201].

(** A solver that reports the status [st] and no usable values. *)
Definition failing_solver (st : string) (_ : Problem) : SolverOutput :=
  mk_SolverOutput st (mk_assignment (mk_ndarray (0%nat, 0%nat) []) 0).

(** Agent 1 values nothing, so the floor is 0 whatever agent 0 receives. *)
Definition indifferent : ndarray := np_array [[1; 1]; [0; 0]].

Definition indifferent_raised : ndarray := raise_entry indifferent 0 0 1.

(** The first valuation of the first agent, read off the program. *)
Definition first_valuation (p : Problem) : Q :=
  match nth 3 (constraints p) (CEq (EConst 0) (EConst 0)) with
  | CLe _ (ESum (EMultiply _ (EConstRow (q :: _)))) => q
  | _ => 0
  end.

Definition all_to_agent0 : assignment :=
  mk_assignment (np_array [[1; 1]; [0; 0]]) 0.

Definition all_to_agent1 : assignment :=
  mk_assignment (np_array [[0; 0]; [1; 1]]) 0.

(** Both answers are optimal for both inputs; the solver picks the first
    on [indifferent] and the second on [indifferent_raised]. *)
Definition tie_solver (p : Problem) : SolverOutput :=
  if Qle_bool (first_valuation p) 1
  then mk_SolverOutput "optimal" all_to_agent0
  else mk_SolverOutput "optimal" all_to_agent1.

Definition tie_result_before : Result :=
  mk_Result "optimal" 0 (alloc_value all_to_agent0) [2; 0].

Definition tie_result_after : Result :=
  mk_Result "optimal" 0 (alloc_value all_to_agent1) [0; 0].

(** Scenario 3 with agent 0's first valuation raised from 100 to 101, and
    its exact optimum. *)
Definition unequal_raised : ndarray := raise_entry unequal 0 0 1.

Definition unequal_raised_optimum : assignment :=
  mk_assignment (np_array [[1#51; 0]; [50#51; 1]]) (101#51).

(** A solver that answers with the optimum of scenario 3, or of the raised
    matrix when agent 0's first valuation exceeds 100. *)
Definition raised_solver (p : Problem) : SolverOutput :=
  if Qle_bool (first_valuation p) 100
  then mk_SolverOutput "optimal" unequal_optimum
  else mk_SolverOutput "optimal" unequal_raised_optimum.

Definition unequal_raised_result : Result :=
  mk_Result "optimal" (101#51) (alloc_value unequal_raised_optimum)
            [101#51; 101#51].

(** A solver that always hands everything to agent 1 with floor 0. *)
Definition other_tie_solver (_ : Problem) : SolverOutput :=
  mk_SolverOutput "optimal" all_to_agent1.

(** Scenario 3 with every valuation doubled. *)
Definition unequal_doubled : ndarray := scale 2 unequal.

Definition doubled_solver (p : Problem) : SolverOutput :=
  if Qle_bool (first_valuation p) 100
  then mk_SolverOutput "optimal" unequal_optimum
  else mk_SolverOutput "optimal"
         (mk_assignment (alloc_value unequal_optimum) (2 * (200#101))).

(** One agent, two resources. *)
Definition single : ndarray := np_array [[3; 5]].

Definition single_solver (_ : Problem) : SolverOutput :=
  mk_SolverOutput "optimal" (mk_assignment (np_array [[1; 1]]) 8).

(** Two agents with the same valuations. *)
Definition identical : ndarray := np_array [[2; 4]; [2; 4]].

Definition identical_solver (_ : Problem) : SolverOutput :=
  mk_SolverOutput "optimal"
    (mk_assignment (np_array [[1#2; 1#2]; [1#2; 1#2]]) 3).

Definition doubled_result : Result :=
  mk_Result "optimal" (400#101) (alloc_value unequal_optimum)
            [40400#10201; 40400#10201].

Definition single_result : Result :=
  mk_Result "optimal" 8 (np_array [[1; 1]]) [8].

Definition identical_result : Result :=
  mk_Result "optimal" 3 (np_array [[1#2; 1#2]; [1#2; 1#2]]) [12#4; 12#4].

(** A valid matrix whose entries differ by twelve orders of magnitude. *)
Definition ill_scaled : ndarray :=
  np_array [[1000000000000; 1]; [1; 1000000000000]].

(** A matrix with no agents and one with no resources. *)
Definition no_agents : ndarray := mk_ndarray (0%nat, 2%nat) [].

Definition no_resources : ndarray := mk_ndarray (2%nat, 0%nat) [[]; []].





(** * Proofs *)

(** ** Sums *)

Lemma big_sum_ext (f g : nat -> Q) (k : nat) :
  (forall i, (i < k)%nat -> f i == g i) -> big_sum f k == big_sum g k.
Proof.
  induction k as [|k IH]; intros H; simpl.
  - reflexivity.
  - rewrite IH by (intros; apply H; lia). rewrite (H k) by lia. reflexivity.
Qed.

Lemma big_sum_shift (f : nat -> Q) (k : nat) :
  big_sum f (S k) == f O + big_sum (fun i => f (S i)) k.
Proof.
  induction k as [|k IH].
  - simpl. lra.
  - change (big_sum f (S (S k))) with (big_sum f (S k) + f (S k)).
    rewrite IH. simpl. lra.
Qed.

Lemma big_sum_le (f g : nat -> Q) (k : nat) :
  (forall i, (i < k)%nat -> f i <= g i) -> big_sum f k <= big_sum g k.
Proof.
  induction k as [|k IH]; intros H; simpl.
  - lra.
  - assert (big_sum f k <= big_sum g k) by (apply IH; intros; apply H; lia).
    assert (f k <= g k) by (apply H; lia). lra.
Qed.

Lemma big_sum_plus (f g : nat -> Q) (k : nat) :
  big_sum (fun i => f i + g i) k == big_sum f k + big_sum g k.
Proof.
  induction k as [|k IH]; simpl.
  - lra.
  - rewrite IH. lra.
Qed.

Lemma big_sum_scale (c : Q) (f : nat -> Q) (k : nat) :
  big_sum (fun i => c * f i) k == c * big_sum f k.
Proof.
  induction k as [|k IH]; simpl.
  - lra.
  - rewrite IH. lra.
Qed.

Lemma big_sum_zero (k : nat) : big_sum (fun _ => 0) k == 0.
Proof. induction k as [|k IH]; simpl; lra. Qed.

Lemma np_sum_map_nth {A : Type} (f : A -> Q) (d : A) (l : list A) :
  np_sum (map f l) == big_sum (fun i => f (nth i l d)) (length l).
Proof.
  induction l as [|x l IH].
  - reflexivity.
  - cbn [map np_sum fold_right length]. rewrite big_sum_shift.
    fold (np_sum (map f l)). rewrite IH. reflexivity.
Qed.

Lemma np_sum_zip_mul (x y : list Q) :
  length x = length y ->
  np_sum (zip_mul x y) == big_sum (fun j => nth j x 0 * nth j y 0) (length x).
Proof.
  revert y. induction x as [|a x IH]; intros [|b y] Hlen; try discriminate.
  - reflexivity.
  - cbn [zip_mul np_sum fold_right length]. rewrite big_sum_shift.
    fold (np_sum (zip_mul x y)). rewrite IH by (simpl in Hlen; lia).
    reflexivity.
Qed.

(** ** Arrays *)

Lemma wf_ndarrayb_spec (a : ndarray) : wf_ndarrayb a = true <-> wf_ndarray a.
Proof.
  unfold wf_ndarrayb, wf_ndarray.
  rewrite andb_true_iff, Nat.eqb_eq, forallb_forall, Forall_forall.
  split; intros [H1 H2]; split; auto; intros r Hr.
  - apply Nat.eqb_eq; auto.
  - apply Nat.eqb_eq; auto.
Qed.

Lemma wf_row (a : ndarray) (i : nat) :
  wf_ndarray a -> (i < fst (shape a))%nat ->
  exists r, nth_error (rows a) i = Some r /\
            nth i (rows a) [] = r /\ length r = snd (shape a).
Proof.
  intros [Hn Hm] Hi.
  destruct (nth_error (rows a) i) as [r|] eqn:E.
  - exists r. split; [reflexivity|]. split.
    + apply nth_error_nth with (d := []) in E. exact E.
    + rewrite Forall_forall in Hm. apply Hm. eapply nth_error_In; eauto.
  - apply nth_error_None in E. lia.
Qed.

Lemma Forall_concat_entries (P : Q -> Prop) (a : ndarray) :
  wf_ndarray a ->
  (Forall P (concat (rows a)) <->
   forall i j, (i < fst (shape a))%nat -> (j < snd (shape a))%nat ->
               P (entry a i j)).
Proof.
  intros Hwf. rewrite Forall_forall. split.
  - intros H i j Hi Hj. destruct (wf_row a i Hwf Hi) as (r & E & En & Hl).
    unfold entry. rewrite En. apply H. apply in_concat. exists r. split.
    + eapply nth_error_In; eauto.
    + apply nth_In. lia.
  - intros H q Hq. apply in_concat in Hq. destruct Hq as (r & Hr & Hq).
    destruct (In_nth _ _ [] Hr) as (i & Hi & Ei).
    destruct (In_nth _ _ 0 Hq) as (j & Hj & Ej).
    destruct Hwf as [Hn Hm]. rewrite Forall_forall in Hm.
    specialize (H i j). unfold entry in H. rewrite Ei, Ej in H.
    apply H; [lia|]. rewrite <- (Hm r Hr). exact Hj.
Qed.

Lemma np_sum_column (a : ndarray) (j : nat) :
  wf_ndarray a -> np_sum (column a j) == column_total a j.
Proof.
  intros [Hn _]. unfold column, column_total, entry.
  rewrite (np_sum_map_nth (fun r => nth j r 0) []). rewrite Hn. reflexivity.
Qed.

Lemma Forall_map_range {A : Type} (P : A -> Prop) (f : nat -> A) (n : nat) :
  Forall P (map f (range n)) <-> forall i, (i < n)%nat -> P (f i).
Proof.
  unfold range. rewrite Forall_forall. split.
  - intros H i Hi. apply H. apply in_map. apply in_seq. lia.
  - intros H x Hx. apply in_map_iff in Hx. destruct Hx as (i & <- & Hi).
    apply in_seq in Hi. apply H. lia.
Qed.

Lemma valid_valuationb_spec (v : ndarray) :
  valid_valuationb v = true -> valid_valuation v.
Proof.
  unfold valid_valuationb, valid_valuation, nonnegativeb, nonnegative.
  rewrite !andb_true_iff, wf_ndarrayb_spec, !Nat.leb_le.
  intros [[[Hw Hn] Hm] Hp].
  split; [exact Hw|]. split; [exact Hn|]. split; [exact Hm|].
  rewrite forallb_forall in Hp. apply Forall_forall. intros r Hr.
  specialize (Hp r Hr). rewrite forallb_forall in Hp.
  apply Forall_forall. intros q Hq. apply Qle_bool_iff. apply Hp. exact Hq.
Qed.

(** ** The comprehension and the loop *)

Lemma comprehension_returns {A B : Type} (f : A -> outcome B) (g : A -> B)
    (xs : list A) :
  (forall x, In x xs -> f x = Returns (g x)) ->
  comprehension f xs = Returns (map g xs).
Proof.
  induction xs as [|x xs IH]; intros H.
  - reflexivity.
  - cbn [comprehension map]. rewrite (H x) by (left; reflexivity).
    cbn [bind]. rewrite IH by (intros; apply H; right; assumption).
    reflexivity.
Qed.

Lemma agent_constraint_returns (v : ndarray) (i : nat) :
  wf_ndarray v -> (i < fst (shape v))%nat ->
  agent_constraint v i = Returns (floor_constraint v i).
Proof.
  intros Hwf Hi. destruct (wf_row v i Hwf Hi) as (r & E & En & _).
  unfold agent_constraint, np_getitem, floor_constraint.
  rewrite E, En. reflexivity.
Qed.

Lemma build_problem_returns (v : ndarray) :
  wf_ndarray v -> build_problem v = Returns (the_program v).
Proof.
  intros Hwf. unfold build_problem, the_program.
  destruct (shape v) as [n m] eqn:Es.
  rewrite (comprehension_returns _ (floor_constraint v)).
  - reflexivity.
  - intros i Hi. apply in_seq in Hi. apply agent_constraint_returns; auto.
    rewrite Es. simpl. lia.
Qed.

(** ** What each constraint says *)

Section Meaning.
Variables (eps : Q) (v : ndarray) (s : assignment).
Hypothesis v_wf : wf_ndarray v.
Hypothesis s_shape : shape (alloc_value s) = shape v.
Hypothesis s_wf : wf_ndarray (alloc_value s).

Lemma satisfies_nonneg :
  satisfies eps s (CGe (EVar allocations) (EConst 0)) <->
  forall i j, (i < fst (shape v))%nat -> (j < snd (shape v))%nat ->
              0 <= entry (alloc_value s) i j + eps.
Proof.
  unfold satisfies. cbn. rewrite Forall_map. cbn.
  rewrite (Forall_concat_entries _ _ s_wf), s_shape. reflexivity.
Qed.

Lemma satisfies_le_one :
  satisfies eps s (CLe (EVar allocations) (EConst 1)) <->
  forall i j, (i < fst (shape v))%nat -> (j < snd (shape v))%nat ->
              entry (alloc_value s) i j <= 1 + eps.
Proof.
  unfold satisfies. cbn. rewrite Forall_map. cbn.
  rewrite (Forall_concat_entries _ _ s_wf), s_shape. reflexivity.
Qed.

Lemma satisfies_columns :
  satisfies eps s (CEq (ESumAxis0 (EVar allocations)) (EConst 1)) <->
  forall j, (j < snd (shape v))%nat ->
            column_total (alloc_value s) j <= 1 + eps /\
            1 <= column_total (alloc_value s) j + eps.
Proof.
  unfold satisfies. cbn. rewrite Forall_map. unfold sum_axis0.
  rewrite Forall_map_range, s_shape. cbn.
  split; intros H j Hj; specialize (H j Hj);
    rewrite (np_sum_column _ j s_wf) in *; exact H.
Qed.

Lemma eval_agent_utility (i : nat) :
  (i < fst (shape v))%nat ->
  exists u,
    eval s (ESum (EMultiply (EIndex (EVar allocations) i)
                            (EConstRow (nth i (rows v) [])))) = Some (VScalar u) /\
    u == utility (alloc_value s) v i.
Proof.
  intros Hi.
  destruct (wf_row v i v_wf Hi) as (r & _ & En & Hl).
  assert (Hi' : (i < fst (shape (alloc_value s)))%nat) by (rewrite s_shape; exact Hi).
  destruct (wf_row _ i s_wf Hi') as (a & Ea & Ean & Hal).
  exists (np_sum (zip_mul a r)). split.
  - cbn. rewrite Ea, En. cbn.
    replace (Nat.eqb (length a) (length r)) with true; [reflexivity|].
    symmetry. apply Nat.eqb_eq. rewrite Hal, Hl, s_shape. reflexivity.
  - rewrite np_sum_zip_mul by (rewrite Hal, Hl, s_shape; reflexivity).
    unfold utility, entry. rewrite Ean, En, Hal, s_shape. reflexivity.
Qed.

Lemma satisfies_floor (i : nat) :
  (i < fst (shape v))%nat ->
  (satisfies eps s (floor_constraint v i) <->
   floor_value s <= utility (alloc_value s) v i + eps).
Proof.
  intros Hi. destruct (eval_agent_utility i Hi) as (u & Eu & Hu).
  unfold satisfies, floor_constraint. cbn [sides fst snd].
  rewrite Eu. cbn. rewrite Forall_cons_iff. cbn. rewrite Hu.
  split; [intros [H _]; exact H | intros H; split; [exact H | constructor]].
Qed.

Lemma program_meaning :
  Forall (satisfies eps s) (constraints (the_program v)) <-> spec_program eps v s.
Proof.
  unfold the_program, fixed_constraints. cbn [constraints].
  rewrite Forall_app, !Forall_cons_iff, Forall_map_range.
  rewrite satisfies_nonneg, satisfies_le_one, satisfies_columns.
  split.
  - intros [(H0 & H1 & Hc & _) Hf]. constructor.
    + intros i j Hi Hj. split; auto.
    + exact Hc.
    + intros i Hi. apply satisfies_floor; auto.
  - intros [Hb Hc Hf]. split; [split; [|split; [|split]]|].
    + intros i j Hi Hj. apply Hb; auto.
    + intros i j Hi Hj. apply Hb; auto.
    + exact Hc.
    + constructor.
    + intros i Hi. apply satisfies_floor; auto.
Qed.
End Meaning.

(** ** Feasibility, spelled out *)

Lemma spec_program_exact (v : ndarray) (s : assignment) :
  spec_program 0 v s <-> exact_program v s.
Proof.
  split.
  - intros [Hb Hc Hf]. constructor.
    + intros i j Hi Hj. specialize (Hb i j Hi Hj). lra.
    + intros j Hj. specialize (Hc j Hj). lra.
    + intros i Hi. specialize (Hf i Hi). lra.
  - intros [Hb Hc Hf]. constructor.
    + intros i j Hi Hj. specialize (Hb i j Hi Hj). lra.
    + intros j Hj. specialize (Hc j Hj). lra.
    + intros i Hi. specialize (Hf i Hi). lra.
Qed.

Lemma is_success_iff (st : string) :
  is_success st = true <->
  st = "optimal"%string \/ st = "optimal_inaccurate"%string.
Proof.
  unfold is_success, success_statuses. cbn [existsb].
  rewrite !orb_true_iff, !String.eqb_eq. intuition discriminate.
Qed.

Lemma feasible_within_meaning (eps : Q) (v : ndarray) (s : assignment) :
  wf_ndarray v ->
  (feasible_within eps (the_program v) s <->
   shape (alloc_value s) = shape v /\ wf_ndarray (alloc_value s) /\
   spec_program eps v s).
Proof.
  intros Hwf. unfold feasible_within. cbn [alloc_shape].
  split; intros (Hs & Hw & H); (split; [exact Hs|split; [exact Hw|]]).
  - apply (program_meaning eps v s Hwf Hs Hw). exact H.
  - apply (program_meaning eps v s Hwf Hs Hw). exact H.
Qed.

(** ** C1: the program that is built *)

(** C1. For every valid n x m valuation matrix, [build_problem] returns a
    program whose allocation variable has shape (n, m), whose objective is
    the scalar floor variable, and whose constraint list is the three
    array constraints followed by one floor constraint per agent; an
    assignment of the right shape satisfies that list exactly when every
    entry lies in [0,1], every column sums to 1 and the floor is at most
    every agent's utility.  Nothing else is constrained. *)
Theorem C1_program_built (v : ndarray) :
  valid_valuation v ->
  exists p,
    build_problem v = Returns p /\
    alloc_shape p = shape v /\
    goal p = Maximize (EVar min_utility) /\
    constraints p =
      fixed_constraints ++ map (floor_constraint v) (range (fst (shape v))) /\
    length (constraints p) = (3 + fst (shape v))%nat /\
    forall s,
      shape (alloc_value s) = shape v -> wf_ndarray (alloc_value s) ->
      (Forall (satisfies 0 s) (constraints p) <-> exact_program v s).
Proof.
  intros (Hwf & _). exists (the_program v).
  split; [apply build_problem_returns; exact Hwf|].
  split; [reflexivity|]. split; [reflexivity|]. split; [reflexivity|].
  split.
  - cbn [the_program constraints]. rewrite length_app, length_map.
    unfold range. rewrite length_seq. reflexivity.
  - intros s Hs Hw. rewrite (program_meaning 0 v s Hwf Hs Hw).
    apply spec_program_exact.
Qed.

Lemma C1_program_built_witness :
  exists p,
    build_problem unequal = Returns p /\
    alloc_shape p = (2%nat, 2%nat) /\
    goal p = Maximize (EVar min_utility) /\
    constraints p =
      fixed_constraints ++ map (floor_constraint unequal) (range 2) /\
    length (constraints p) = 5%nat /\
    forall s,
      shape (alloc_value s) = (2%nat, 2%nat) -> wf_ndarray (alloc_value s) ->
      (Forall (satisfies 0 s) (constraints p) <-> exact_program unequal s).
Proof.
  apply (C1_program_built unequal).
  apply valid_valuationb_spec. vm_compute. reflexivity.
Defined.

(** ** A feasible point and a bound *)

Lemma all_to_first_wf (n m : nat) : (1 <= n)%nat -> wf_ndarray (all_to_first n m).
Proof.
  intros Hn. split; cbn.
  - rewrite repeat_length. lia.
  - constructor; [apply repeat_length|].
    apply Forall_forall. intros r Hr. apply repeat_spec in Hr. subst r.
    apply repeat_length.
Qed.

Lemma entry_all_to_first_0 (n m j : nat) :
  (j < m)%nat -> entry (all_to_first n m) 0 j = 1.
Proof. intros Hj. unfold entry. cbn. apply nth_repeat_lt. exact Hj. Qed.

Lemma entry_all_to_first_S (n m i j : nat) :
  entry (all_to_first n m) (S i) j = 0.
Proof.
  unfold entry. cbn.
  destruct (Nat.lt_ge_cases i (n - 1)) as [Hi|Hi].
  - rewrite nth_repeat_lt by exact Hi. apply nth_repeat.
  - rewrite (nth_overflow (repeat (repeat 0 m) (n - 1)))
      by (rewrite repeat_length; exact Hi).
    destruct j; reflexivity.
Qed.

Lemma entry_all_to_first_range (n m i j : nat) :
  (j < m)%nat -> 0 <= entry (all_to_first n m) i j <= 1.
Proof.
  intros Hj. destruct i.
  - rewrite entry_all_to_first_0 by exact Hj. lra.
  - rewrite entry_all_to_first_S. lra.
Qed.

Lemma entry_nonneg (v : ndarray) (i j : nat) :
  nonnegative v -> 0 <= entry v i j.
Proof.
  intros Hv. unfold entry, nonnegative in *.
  destruct (nth_in_or_default i (rows v) []) as [Hr|Hr].
  - rewrite Forall_forall in Hv. specialize (Hv _ Hr).
    destruct (nth_in_or_default j (nth i (rows v) []) 0) as [Hq|Hq].
    + rewrite Forall_forall in Hv. apply Hv. exact Hq.
    + rewrite Hq. lra.
  - rewrite Hr. destruct j; cbn; lra.
Qed.

Lemma big_sum_nonneg (f : nat -> Q) (k : nat) :
  (forall i, (i < k)%nat -> 0 <= f i) -> 0 <= big_sum f k.
Proof.
  intros H. rewrite <- (big_sum_zero k). apply big_sum_le. exact H.
Qed.

Lemma objective_value_program (v : ndarray) (s : assignment) :
  objective_value (the_program v) s = Some (floor_value s).
Proof. reflexivity. Qed.

Lemma program_feasible (v : ndarray) :
  valid_valuation v ->
  feasible (the_program v)
    (mk_assignment (all_to_first (fst (shape v)) (snd (shape v))) 0).
Proof.
  intros (Hwf & Hn & Hm & Hpos).
  apply feasible_within_meaning; [exact Hwf|]. cbn [alloc_value floor_value].
  split; [destruct (shape v); reflexivity|].
  split; [apply all_to_first_wf; exact Hn|].
  apply spec_program_exact. constructor; cbn [alloc_value floor_value].
  - intros i j _ Hj. apply entry_all_to_first_range. exact Hj.
  - intros j Hj. unfold column_total. cbn [all_to_first shape fst].
    destruct (fst (shape v)) as [|n] eqn:En; [lia|].
    rewrite big_sum_shift.
    change (mk_ndarray (S n, snd (shape v))
              (repeat 1 (snd (shape v)) :: repeat (repeat 0 (snd (shape v))) (S n - 1)))
      with (all_to_first (S n) (snd (shape v))).
    rewrite entry_all_to_first_0 by exact Hj.
    rewrite (big_sum_ext _ (fun _ => 0)).
    + rewrite big_sum_zero. lra.
    + intros i _. rewrite entry_all_to_first_S. reflexivity.
  - intros i _. unfold utility. apply big_sum_nonneg. intros j Hj.
    apply Qmult_le_0_compat.
    + apply entry_all_to_first_range. exact Hj.
    + apply entry_nonneg. exact Hpos.
Qed.

Lemma program_bounded (v : ndarray) :
  valid_valuation v -> bounded_above (the_program v).
Proof.
  intros (Hwf & Hn & Hm & Hpos).
  exists (big_sum (fun j => entry v 0%nat j) (snd (shape v))).
  intros s q Hs Hq. rewrite objective_value_program in Hq.
  injection Hq as <-.
  apply (feasible_within_meaning 0 v s Hwf) in Hs.
  destruct Hs as (_ & _ & Hs). apply spec_program_exact in Hs.
  destruct Hs as [Hb _ Hf].
  eapply Qle_trans; [apply (Hf 0%nat); lia|].
  unfold utility. apply big_sum_le. intros j Hj.
  rewrite <- (Qmult_1_l (entry v 0 j)) at 2.
  apply Qmult_le_compat_r.
  - apply Hb; [lia|exact Hj].
  - apply entry_nonneg. exact Hpos.
Qed.

(** ** The interpretation of the solver's answer *)

Lemma agent_utility_value_returns (a v : ndarray) (i : nat) :
  wf_ndarray v -> wf_ndarray a -> shape a = shape v ->
  (i < fst (shape v))%nat ->
  agent_utility_value a v i =
    Returns (np_sum (zip_mul (nth i (rows a) []) (nth i (rows v) []))).
Proof.
  intros Hv Ha Hs Hi.
  destruct (wf_row v i Hv Hi) as (r & Er & Ern & Hl).
  assert (Hi' : (i < fst (shape a))%nat) by (rewrite Hs; exact Hi).
  destruct (wf_row a i Ha Hi') as (x & Ex & Exn & Hxl).
  unfold agent_utility_value, np_getitem. rewrite Ex, Er. cbn [bind].
  unfold np_multiply.
  replace (Nat.eqb (length x) (length r)) with true
    by (symmetry; apply Nat.eqb_eq; rewrite Hxl, Hl, Hs; reflexivity).
  cbn [bind]. rewrite Exn, Ern. reflexivity.
Qed.

Lemma utilities_returns (a v : ndarray) :
  wf_ndarray v -> wf_ndarray a -> shape a = shape v ->
  comprehension (agent_utility_value a v) (range (fst (shape v))) =
    Returns (utilities_of a v).
Proof.
  intros Hv Ha Hs. unfold utilities_of. apply comprehension_returns.
  intros i Hi. apply in_seq in Hi.
  apply agent_utility_value_returns; auto. lia.
Qed.

Lemma nth_utilities_of (a v : ndarray) (i : nat) :
  wf_ndarray v -> wf_ndarray a -> shape a = shape v ->
  (i < fst (shape v))%nat ->
  nth i (utilities_of a v) 0 == utility a v i.
Proof.
  intros Hv Ha Hs Hi. unfold utilities_of, range.
  rewrite (nth_indep _ 0 (np_sum (zip_mul (nth (fst (shape v)) (rows a) [])
                                         (nth (fst (shape v)) (rows v) []))))
    by (rewrite length_map, length_seq; exact Hi).
  rewrite (map_nth (fun i => np_sum (zip_mul (nth i (rows a) []) (nth i (rows v) [])))).
  rewrite seq_nth by exact Hi. cbn [plus].
  destruct (wf_row v i Hv Hi) as (r & _ & Ern & Hl).
  assert (Hi' : (i < fst (shape a))%nat) by (rewrite Hs; exact Hi).
  destruct (wf_row a i Ha Hi') as (x & _ & Exn & Hxl).
  rewrite np_sum_zip_mul by (rewrite Exn, Ern, Hxl, Hl, Hs; reflexivity).
  unfold utility, entry. rewrite Exn, Hxl, Hs. reflexivity.
Qed.

Lemma length_utilities_of (a v : ndarray) :
  length (utilities_of a v) = fst (shape v).
Proof. unfold utilities_of, range. rewrite length_map, length_seq. reflexivity. Qed.

Section Call.
Variables (cp : cvxpy) (v : ndarray) (out : SolverOutput).
Hypothesis v_wf : wf_ndarray v.
Hypothesis created : cp_Variable cp (shape v) = Returns tt.
Hypothesis solved : cp_solve cp (the_program v) = Returns out.

Lemma call_failure :
  is_success (solver_status out) = false ->
  egalitarian_division cp v = Raises (ValueError error_message).
Proof.
  intros Hst. unfold egalitarian_division. rewrite created. cbn [bind].
  rewrite (build_problem_returns v v_wf). cbn [bind].
  rewrite solved. cbn [bind]. rewrite Hst. reflexivity.
Qed.

Lemma call_success :
  well_shaped (the_program v) out ->
  is_success (solver_status out) = true ->
  egalitarian_division cp v =
    Returns (mk_Result (solver_status out)
                       (floor_value (primal out))
                       (alloc_value (primal out))
                       (utilities_of (alloc_value (primal out)) v)).
Proof.
  intros Hsh Hst. destruct (Hsh Hst) as [Hs Hw]. cbn [alloc_shape the_program] in Hs.
  unfold egalitarian_division. rewrite created. cbn [bind].
  rewrite (build_problem_returns v v_wf). cbn [bind].
  rewrite solved. cbn [bind]. rewrite Hst. cbn [negb].
  rewrite (utilities_returns _ v v_wf Hw Hs). reflexivity.
Qed.
End Call.

(** An exception of [cp.Variable] or of [solve()] is the outcome of the
    call. *)
Lemma call_variable_raises (cp : cvxpy) (v : ndarray) (e : exn) :
  cp_Variable cp (shape v) = Raises e -> egalitarian_division cp v = Raises e.
Proof. intros H. unfold egalitarian_division. rewrite H. reflexivity. Qed.

Lemma call_solve_raises (cp : cvxpy) (v : ndarray) (e : exn) :
  wf_ndarray v ->
  cp_Variable cp (shape v) = Returns tt ->
  cp_solve cp (the_program v) = Raises e ->
  egalitarian_division cp v = Raises e.
Proof.
  intros Hwf Hc Hs. unfold egalitarian_division. rewrite Hc. cbn [bind].
  rewrite (build_problem_returns v Hwf). cbn [bind]. rewrite Hs. reflexivity.
Qed.

(** A call that returns has created its variable and completed its solve. *)
Lemma returned_call (cp : cvxpy) (v : ndarray) (r : Result) :
  wf_ndarray v ->
  egalitarian_division cp v = Returns r ->
  cp_Variable cp (shape v) = Returns tt /\
  exists out, cp_solve cp (the_program v) = Returns out.
Proof.
  intros Hwf Hr.
  destruct (cp_Variable cp (shape v)) as [[]|e] eqn:Hc.
  - split; [reflexivity|].
    destruct (cp_solve cp (the_program v)) as [out|e] eqn:Hs.
    + exists out. reflexivity.
    + rewrite (call_solve_raises cp v e Hwf Hc Hs) in Hr. discriminate.
  - rewrite (call_variable_raises cp v e Hc) in Hr. discriminate.
Qed.

Lemma call_returns_inv (cp : cvxpy) (v : ndarray) (out : SolverOutput)
    (r : Result) :
  wf_ndarray v ->
  cp_solve cp (the_program v) = Returns out ->
  well_shaped (the_program v) out ->
  egalitarian_division cp v = Returns r ->
  is_success (solver_status out) = true /\
  r = mk_Result (solver_status out)
                (floor_value (primal out))
                (alloc_value (primal out))
                (utilities_of (alloc_value (primal out)) v).
Proof.
  intros Hwf Hout Hsh Hr.
  destruct (returned_call cp v r Hwf Hr) as [Hc _].
  destruct (is_success (solver_status out)) eqn:Hst.
  - split; [reflexivity|].
    rewrite (call_success cp v out Hwf Hc Hout Hsh Hst) in Hr.
    injection Hr as <-. reflexivity.
  - rewrite (call_failure cp v out Hwf Hc Hout Hst) in Hr. discriminate.
Qed.

Lemma sound_feasible_well_shaped (eps : Q) (p : Problem) (out : SolverOutput) :
  sound_feasible eps p out -> well_shaped p out.
Proof. intros H Hst. destruct (H Hst) as (Hs & Hw & _). split; assumption. Qed.

Lemma sound_optimal_feasible (eps : Q) (p : Problem) (out : SolverOutput) :
  sound_optimal eps p out -> sound_feasible eps p out.
Proof. intros H Hst. apply (H Hst). Qed.

(** ** Mock solvers for the reference scenarios *)

Lemma on_built_program_intro (P : Problem -> SolverOutput -> Prop)
    (cp : cvxpy) (v : ndarray) :
  wf_ndarray v ->
  (forall out, cp_solve cp (the_program v) = Returns out ->
               P (the_program v) out) ->
  on_built_program P cp v.
Proof.
  intros Hwf H p out Hp Hout. rewrite (build_problem_returns v Hwf) in Hp.
  injection Hp as <-. apply H. exact Hout.
Qed.

Lemma on_built_program_elim (P : Problem -> SolverOutput -> Prop)
    (cp : cvxpy) (v : ndarray) (out : SolverOutput) :
  wf_ndarray v -> cp_solve cp (the_program v) = Returns out ->
  on_built_program P cp v -> P (the_program v) out.
Proof.
  intros Hwf Hout H. apply (H (the_program v) out); [|exact Hout].
  apply build_problem_returns. exact Hwf.
Qed.

Lemma on_built_program_impl (P R : Problem -> SolverOutput -> Prop)
    (cp : cvxpy) (v : ndarray) :
  (forall p out, P p out -> R p out) ->
  on_built_program P cp v -> on_built_program R cp v.
Proof. intros HPR H p out Hp Hout. apply HPR. exact (H p out Hp Hout). Qed.

(** For a mock the answer is the function's value. *)
Lemma on_built_program_mock (P : Problem -> SolverOutput -> Prop)
    (f : Problem -> SolverOutput) (v : ndarray) :
  wf_ndarray v -> P (the_program v) (f (the_program v)) ->
  on_built_program P (mock f) v.
Proof.
  intros Hwf H. apply on_built_program_intro; [exact Hwf|].
  intros out Hout. cbn in Hout. injection Hout as <-. exact H.
Qed.

Lemma unequal_valid : valid_valuation unequal.
Proof. apply valid_valuationb_spec. reflexivity. Qed.

Lemma unequal_wf : wf_ndarray unequal.
Proof. apply unequal_valid. Qed.

Lemma scenario3_feasible : feasible (the_program unequal) unequal_optimum.
Proof.
  apply (feasible_within_meaning 0 unequal _ unequal_wf).
  split; [reflexivity|]. split; [apply wf_ndarrayb_spec; reflexivity|].
  apply spec_program_exact. constructor; cbn [unequal np_array shape fst snd length hd].
  - intros i j Hi Hj.
    destruct i as [|[|i]]; [| |lia]; (destruct j as [|[|j]]; [| |lia]);
      vm_compute; intuition discriminate.
  - intros j Hj. destruct j as [|[|j]]; [| |lia]; vm_compute; reflexivity.
  - intros i Hi. destruct i as [|[|i]]; [| |lia]; vm_compute; discriminate.
Qed.

(** Every feasible floor of scenario 3 is at most 200/101. *)
Lemma scenario3_bound (s : assignment) :
  feasible (the_program unequal) s -> floor_value s <= 200#101.
Proof.
  intros Hs. apply (feasible_within_meaning 0 unequal _ unequal_wf) in Hs.
  destruct Hs as (Hsh & _ & Hs). apply spec_program_exact in Hs.
  destruct Hs as [_ Hc Hf].
  pose proof (Hc 0%nat ltac:(cbn; lia)) as C0.
  pose proof (Hc 1%nat ltac:(cbn; lia)) as C1.
  pose proof (Hf 0%nat ltac:(cbn; lia)) as F0.
  pose proof (Hf 1%nat ltac:(cbn; lia)) as F1.
  unfold column_total, utility in *. rewrite Hsh in *.
  cbn [unequal np_array shape fst snd length hd big_sum] in *.
  change (entry unequal 0 0) with 100 in F0.
  change (entry unequal 0 1) with 100 in F0.
  change (entry unequal 1 0) with 1 in F1.
  change (entry unequal 1 1) with 1 in F1.
  lra.
Qed.

Lemma scenario3_optimal (eps : Q) :
  0 <= eps -> optimal_within eps (the_program unequal) unequal_optimum.
Proof.
  intros Heps. split.
  - destruct scenario3_feasible as (Hs & Hw & Hc).
    split; [exact Hs|]. split; [exact Hw|].
    apply (program_meaning eps unequal _ unequal_wf Hs Hw).
    apply (program_meaning 0 unequal _ unequal_wf Hs Hw) in Hc.
    destruct Hc as [Hb Hcol Hf]. constructor.
    + intros i j Hi Hj. specialize (Hb i j Hi Hj). lra.
    + intros j Hj. specialize (Hcol j Hj). lra.
    + intros i Hi. specialize (Hf i Hi). lra.
  - intros s' q q' Hs' Hq Hq'. rewrite objective_value_program in Hq, Hq'.
    injection Hq as <-. injection Hq' as <-.
    pose proof (scenario3_bound s' Hs'). cbn [unequal_optimum floor_value]. lra.
Qed.

Lemma scenario3_solver_sound (eps : Q) :
  0 <= eps -> on_built_program (sound_optimal eps) (mock scenario3_solver) unequal.
Proof.
  intros Heps. apply on_built_program_mock; [exact unequal_wf|].
  intros _. apply scenario3_optimal. exact Heps.
Qed.

Lemma scenario3_solver_feasible (eps : Q) :
  0 <= eps -> on_built_program (sound_feasible eps) (mock scenario3_solver) unequal.
Proof.
  intros Heps.
  apply (on_built_program_impl (sound_optimal eps)).
  - intros p out. apply sound_optimal_feasible.
  - apply scenario3_solver_sound. exact Heps.
Qed.

Lemma scenario3_solver_shaped :
  on_built_program well_shaped (mock scenario3_solver) unequal.
Proof.
  apply (on_built_program_impl (sound_feasible 0)).
  - intros p out. apply sound_feasible_well_shaped.
  - apply scenario3_solver_feasible. lra.
Qed.

Lemma failing_solver_shaped (st : string) (v : ndarray) :
  is_success st = false ->
  on_built_program well_shaped (mock (failing_solver st)) v.
Proof.
  intros Hst p out _ Hout H. cbn in Hout. injection Hout as <-.
  change (is_success st = true) in H. congruence.
Qed.

(** What the call returns in scenario 3 with the mock solver. *)
Example scenario3_call :
  egalitarian_division (mock scenario3_solver) unequal = Returns scenario3_result.
Proof. vm_compute. reflexivity. Qed.

(** ** C2: on valid input only the solver can make the call fail *)

(** C2, counterexample.  The matrix [[10^12, 1], [1, 10^12]] is a valid
    valuation matrix, yet the call does not succeed when the solver breaks
    down on it: if [solve()] raises, the call raises the solver's
    exception, and if the solver gives up with a status other than optimal
    and optimal_inaccurate, line 78 raises.  Both solvers claim nothing
    false about the program. *)
Lemma C2_counterexample :
  valid_valuation ill_scaled /\
  egalitarian_division crashing ill_scaled =
    Raises (SolverError "Solver failed. Try another solver.") /\
  on_built_program truthful (mock (failing_solver "infeasible_inaccurate")) ill_scaled /\
  on_built_program (sound_optimal 0)
                   (mock (failing_solver "infeasible_inaccurate")) ill_scaled /\
  egalitarian_division (mock (failing_solver "infeasible_inaccurate")) ill_scaled =
    Raises (ValueError error_message).
Proof.
  split; [apply valid_valuationb_spec; vm_compute; reflexivity|].
  split; [vm_compute; reflexivity|].
  split.
  - intros p out _ Hout. cbn in Hout. injection Hout as <-.
    split; intros H; cbn in H; discriminate.
  - split; [|vm_compute; reflexivity].
    intros p out _ Hout. cbn in Hout. injection Hout as <-.
    intros H. vm_compute in H. discriminate.
Qed.

(** C2 (as amended). For every valid valuation matrix (n >= 1, m >= 1,
    entries >= 0) the constructed program has a feasible point and its
    objective is bounded above.  Hence a solver whose reports of
    infeasible and unbounded are truthful reports neither; the call
    returns whenever the solver reports optimal or optimal_inaccurate; and
    when the call raises, either [solve()] itself raised or it ended with
    another status, which line 78 turns into the ValueError. *)
Theorem C2_failure_only_from_solver (cp : cvxpy) (v : ndarray) :
  valid_valuation v ->
  cp_Variable cp (shape v) = Returns tt ->
  on_built_program well_shaped cp v ->
  exists p,
    build_problem v = Returns p /\
    (exists s, feasible p s) /\
    bounded_above p /\
    (forall out, cp_solve cp p = Returns out -> truthful p out ->
       solver_status out <> "infeasible"%string /\
       solver_status out <> "unbounded"%string) /\
    (forall out, cp_solve cp p = Returns out ->
       solver_status out = "optimal"%string \/
       solver_status out = "optimal_inaccurate"%string ->
       exists r, egalitarian_division cp v = Returns r /\
                 r_status r = solver_status out) /\
    (forall e, egalitarian_division cp v = Raises e ->
       cp_solve cp p = Raises e \/
       exists out, cp_solve cp p = Returns out /\
                   is_success (solver_status out) = false /\
                   e = ValueError error_message).
Proof.
  intros Hv Hc Hsh. pose proof Hv as (Hwf & _).
  exists (the_program v).
  split; [apply build_problem_returns; exact Hwf|].
  assert (Hf : exists s, feasible (the_program v) s)
    by (eexists; apply program_feasible; exact Hv).
  pose proof (program_bounded v Hv) as Hb.
  split; [exact Hf|]. split; [exact Hb|]. split; [|split].
  - intros out _ [Hinf Hunb]. split; intros E.
    + apply (Hinf E). exact Hf.
    + apply (Hunb E). exact Hb.
  - intros out Hout Hst. apply is_success_iff in Hst.
    pose proof (on_built_program_elim _ _ _ _ Hwf Hout Hsh) as Hshape.
    rewrite (call_success cp v out Hwf Hc Hout Hshape Hst).
    eexists. split; reflexivity.
  - intros e He.
    destruct (cp_solve cp (the_program v)) as [out|e'] eqn:Hout.
    + right. exists out. split; [reflexivity|].
      pose proof (on_built_program_elim _ _ _ _ Hwf Hout Hsh) as Hshape.
      destruct (is_success (solver_status out)) eqn:Hst.
      * rewrite (call_success cp v out Hwf Hc Hout Hshape Hst) in He. discriminate.
      * rewrite (call_failure cp v out Hwf Hc Hout Hst) in He.
        injection He as <-. split; reflexivity.
    + left. rewrite (call_solve_raises cp v e' Hwf Hc Hout) in He.
      injection He as <-. reflexivity.
Qed.

Lemma C2_failure_only_from_solver_witness :
  exists p,
    build_problem unequal = Returns p /\
    (exists s, feasible p s) /\
    bounded_above p /\
    (forall out, cp_solve (mock scenario3_solver) p = Returns out -> truthful p out ->
       solver_status out <> "infeasible"%string /\
       solver_status out <> "unbounded"%string) /\
    (forall out, cp_solve (mock scenario3_solver) p = Returns out ->
       solver_status out = "optimal"%string \/
       solver_status out = "optimal_inaccurate"%string ->
       exists r, egalitarian_division (mock scenario3_solver) unequal = Returns r /\
                 r_status r = solver_status out) /\
    (forall e, egalitarian_division (mock scenario3_solver) unequal = Raises e ->
       cp_solve (mock scenario3_solver) p = Raises e \/
       exists out, cp_solve (mock scenario3_solver) p = Returns out /\
                   is_success (solver_status out) = false /\
                   e = ValueError error_message).
Proof.
  apply (C2_failure_only_from_solver (mock scenario3_solver) unequal).
  - apply valid_valuationb_spec. vm_compute. reflexivity.
  - vm_compute. reflexivity.
  - exact scenario3_solver_shaped.
Defined.

(** ** C3: raise or return, by the solver status alone *)

(** C3. The call raises exactly when the status the solver leaves is
    neither optimal nor optimal_inaccurate (a solve that raised leaves
    none).  On a failing status it raises the ValueError of line 78; an
    exception of [solve()] is the call's exception; in neither case is an
    allocation returned.  On optimal or optimal_inaccurate it returns the
    status as reported, the floor value, the allocation matrix and the
    utility vector whose entry i is the sum over j of
    allocation[i][j] * valuation[i][j], so that the status field tells
    optimal_inaccurate from optimal. *)
Theorem C3_raise_iff_not_optimal (cp : cvxpy) (v : ndarray) :
  wf_ndarray v ->
  cp_Variable cp (shape v) = Returns tt ->
  on_built_program well_shaped cp v ->
  exists p,
    build_problem v = Returns p /\
    ((exists e, egalitarian_division cp v = Raises e) <->
     (reported_status (cp_solve cp p) <> Some "optimal"%string /\
      reported_status (cp_solve cp p) <> Some "optimal_inaccurate"%string)) /\
    (forall out, cp_solve cp p = Returns out ->
       solver_status out <> "optimal"%string ->
       solver_status out <> "optimal_inaccurate"%string ->
       egalitarian_division cp v = Raises (ValueError error_message)) /\
    (forall e, cp_solve cp p = Raises e -> egalitarian_division cp v = Raises e) /\
    (forall out, cp_solve cp p = Returns out ->
       solver_status out = "optimal"%string \/
       solver_status out = "optimal_inaccurate"%string ->
       exists r,
         egalitarian_division cp v = Returns r /\
         r_status r = solver_status out /\
         r_min_utility r = floor_value (primal out) /\
         r_allocations r = alloc_value (primal out) /\
         length (r_utilities r) = fst (shape v) /\
         forall i, (i < fst (shape v))%nat ->
           nth i (r_utilities r) 0 == utility (alloc_value (primal out)) v i).
Proof.
  intros Hwf Hc Hsh. exists (the_program v).
  split; [apply build_problem_returns; exact Hwf|].
  assert (Hfail : forall out, cp_solve cp (the_program v) = Returns out ->
            solver_status out <> "optimal"%string ->
            solver_status out <> "optimal_inaccurate"%string ->
            egalitarian_division cp v = Raises (ValueError error_message)).
  { intros out Hout H1 H2. apply (call_failure cp v out Hwf Hc Hout).
    destruct (is_success (solver_status out)) eqn:Hst; [|reflexivity].
    apply is_success_iff in Hst. tauto. }
  assert (Hok : forall out, cp_solve cp (the_program v) = Returns out ->
            solver_status out = "optimal"%string \/
            solver_status out = "optimal_inaccurate"%string ->
            egalitarian_division cp v =
              Returns (mk_Result (solver_status out) (floor_value (primal out))
                         (alloc_value (primal out))
                         (utilities_of (alloc_value (primal out)) v)) /\
            shape (alloc_value (primal out)) = shape v /\
            wf_ndarray (alloc_value (primal out))).
  { intros out Hout Hst. apply is_success_iff in Hst.
    pose proof (on_built_program_elim _ _ _ _ Hwf Hout Hsh) as Hshape.
    split; [apply (call_success cp v out Hwf Hc Hout Hshape Hst)|].
    apply (Hshape Hst). }
  split; [|split; [exact Hfail|split]].
  - destruct (cp_solve cp (the_program v)) as [out|e] eqn:Hout; cbn [reported_status].
    + split.
      * intros [e He]. split; intros E; injection E as E.
        -- destruct (Hok out eq_refl (or_introl E)) as [Hr _].
           rewrite Hr in He. discriminate.
        -- destruct (Hok out eq_refl (or_intror E)) as [Hr _].
           rewrite Hr in He. discriminate.
      * intros [H1 H2]. eexists. apply (Hfail out eq_refl); congruence.
    + split.
      * intros _. split; discriminate.
      * intros _. exists e. apply (call_solve_raises cp v e Hwf Hc Hout).
  - intros e He. apply (call_solve_raises cp v e Hwf Hc He).
  - intros out Hout Hst. destruct (Hok out Hout Hst) as (Hr & Hs & Hw).
    eexists. split; [exact Hr|]. cbn [r_status r_min_utility r_allocations r_utilities].
    split; [reflexivity|]. split; [reflexivity|]. split; [reflexivity|].
    split; [apply length_utilities_of|].
    intros i Hi. apply nth_utilities_of; assumption.
Qed.

Lemma C3_raise_iff_not_optimal_witness :
  exists p,
    build_problem unequal = Returns p /\
    ((exists e, egalitarian_division (mock scenario3_solver) unequal = Raises e) <->
     (reported_status (cp_solve (mock scenario3_solver) p) <> Some "optimal"%string /\
      reported_status (cp_solve (mock scenario3_solver) p)
        <> Some "optimal_inaccurate"%string)) /\
    (forall out, cp_solve (mock scenario3_solver) p = Returns out ->
       solver_status out <> "optimal"%string ->
       solver_status out <> "optimal_inaccurate"%string ->
       egalitarian_division (mock scenario3_solver) unequal =
         Raises (ValueError error_message)) /\
    (forall e, cp_solve (mock scenario3_solver) p = Raises e ->
       egalitarian_division (mock scenario3_solver) unequal = Raises e) /\
    (forall out, cp_solve (mock scenario3_solver) p = Returns out ->
       solver_status out = "optimal"%string \/
       solver_status out = "optimal_inaccurate"%string ->
       exists r,
         egalitarian_division (mock scenario3_solver) unequal = Returns r /\
         r_status r = solver_status out /\
         r_min_utility r = floor_value (primal out) /\
         r_allocations r = alloc_value (primal out) /\
         length (r_utilities r) = 2%nat /\
         forall i, (i < 2)%nat ->
           nth i (r_utilities r) 0 == utility (alloc_value (primal out)) unequal i).
Proof.
  apply (C3_raise_iff_not_optimal (mock scenario3_solver) unequal).
  - apply wf_ndarrayb_spec. vm_compute. reflexivity.
  - vm_compute. reflexivity.
  - exact scenario3_solver_shaped.
Defined.

(** ** C4: the returned allocation is valid *)

(** C4. When the solver's values meet the constraints up to a tolerance
    [eps], every entry of the returned allocation matrix lies in [0,1] up
    to [eps] and every column of it sums to 1 up to [eps]. *)
Theorem C4_allocation_valid (eps : Q) (cp : cvxpy)
    (v : ndarray) (r : Result) :
  wf_ndarray v ->
  on_built_program (sound_feasible eps) cp v ->
  egalitarian_division cp v = Returns r ->
  shape (r_allocations r) = shape v /\
  (forall i j, (i < fst (shape v))%nat -> (j < snd (shape v))%nat ->
     - eps <= entry (r_allocations r) i j <= 1 + eps) /\
  (forall j, (j < snd (shape v))%nat ->
     Qabs (column_total (r_allocations r) j - 1) <= eps).
Proof.
  intros Hwf Hs Hr.
  destruct (returned_call cp v r Hwf Hr) as (_ & out & Hout).
  apply (on_built_program_elim _ _ _ _ Hwf Hout) in Hs.
  pose proof (sound_feasible_well_shaped _ _ _ Hs) as Hsh.
  destruct (call_returns_inv cp v out r Hwf Hout Hsh Hr) as [Hst ->].
  cbn [r_allocations].
  apply (feasible_within_meaning eps v _ Hwf) in Hs; [|exact Hst].
  destruct Hs as (Hshape & _ & [Hb Hc _]).
  split; [exact Hshape|]. split.
  - intros i j Hi Hj. specialize (Hb i j Hi Hj). lra.
  - intros j Hj. specialize (Hc j Hj).
    apply Qabs_Qle_condition. lra.
Qed.

Lemma C4_allocation_valid_witness :
  shape (r_allocations scenario3_result) = (2%nat, 2%nat) /\
  (forall i j, (i < 2)%nat -> (j < 2)%nat ->
     - (1#1000000) <= entry (r_allocations scenario3_result) i j <= 1 + (1#1000000)) /\
  (forall j, (j < 2)%nat ->
     Qabs (column_total (r_allocations scenario3_result) j - 1) <= 1#1000000).
Proof.
  apply (C4_allocation_valid (1#1000000) (mock scenario3_solver) unequal scenario3_result).
  - apply wf_ndarrayb_spec. vm_compute. reflexivity.
  - apply scenario3_solver_feasible. vm_compute. discriminate.
  - vm_compute. reflexivity.
Defined.

(** ** C5: utilities are recomputed from the allocation and the valuations *)

(** C5. In every successful result the utilities vector has one entry per
    agent, and entry i is the sum over the resources j of
    allocation[i][j] * valuation[i][j], taken from the returned allocation
    and the caller's matrix. *)
Theorem C5_utilities_recomputed (cp : cvxpy)
    (v : ndarray) (r : Result) :
  wf_ndarray v ->
  on_built_program well_shaped cp v ->
  egalitarian_division cp v = Returns r ->
  length (r_utilities r) = fst (shape v) /\
  forall i, (i < fst (shape v))%nat ->
    nth i (r_utilities r) 0 == utility (r_allocations r) v i.
Proof.
  intros Hwf Hsh Hr.
  destruct (returned_call cp v r Hwf Hr) as (_ & out & Hout).
  apply (on_built_program_elim _ _ _ _ Hwf Hout) in Hsh.
  destruct (call_returns_inv cp v out r Hwf Hout Hsh Hr) as [Hst ->].
  destruct (Hsh Hst) as [Hs Hw]. cbn [r_utilities r_allocations].
  split; [apply length_utilities_of|].
  intros i Hi. apply nth_utilities_of; auto.
Qed.

Lemma C5_utilities_recomputed_witness :
  length (r_utilities scenario3_result) = 2%nat /\
  forall i, (i < 2)%nat ->
    nth i (r_utilities scenario3_result) 0 ==
    utility (r_allocations scenario3_result) unequal i.
Proof.
  apply (C5_utilities_recomputed (mock scenario3_solver) unequal scenario3_result).
  - apply wf_ndarrayb_spec. vm_compute. reflexivity.
  - exact scenario3_solver_shaped.
  - vm_compute. reflexivity.
Defined.

(** ** The least element of a list *)

Lemma fold_min_le_init (x : Q) (xs : list Q) : fold_right Qmin x xs <= x.
Proof.
  induction xs as [|y ys IH]; cbn.
  - lra.
  - eapply Qle_trans; [apply Q.le_min_r|exact IH].
Qed.

Lemma fold_min_le_in (x y : Q) (xs : list Q) :
  In y xs -> fold_right Qmin x xs <= y.
Proof.
  induction xs as [|z zs IH]; cbn; intros H.
  - contradiction.
  - destruct H as [->|H].
    + apply Q.le_min_l.
    + eapply Qle_trans; [apply Q.le_min_r|apply IH; exact H].
Qed.

Lemma minimum_le (l : list Q) (y : Q) : In y l -> minimum l <= y.
Proof.
  destruct l as [|x xs]; cbn; intros H.
  - contradiction.
  - destruct H as [->|H].
    + apply fold_min_le_init.
    + apply fold_min_le_in. exact H.
Qed.

Lemma minimum_glb (l : list Q) (b : Q) :
  l <> [] -> (forall y, In y l -> b <= y) -> b <= minimum l.
Proof.
  destruct l as [|x xs]; [congruence|]. intros _ H. cbn.
  assert (Hx : b <= x) by (apply H; left; reflexivity).
  assert (Hxs : forall y, In y xs -> b <= y) by (intros; apply H; right; assumption).
  clear H. induction xs as [|z zs IH]; cbn.
  - exact Hx.
  - apply Q.min_glb.
    + apply Hxs. left. reflexivity.
    + apply IH. intros y Hy. apply Hxs. right. exact Hy.
Qed.

Lemma in_utilities_of (a v : ndarray) (x : Q) :
  wf_ndarray v -> wf_ndarray a -> shape a = shape v ->
  In x (utilities_of a v) ->
  exists i, (i < fst (shape v))%nat /\ x == utility a v i.
Proof.
  intros Hv Ha Hs Hx. destruct (In_nth _ _ 0 Hx) as (i & Hi & <-).
  rewrite length_utilities_of in Hi. exists i. split; [exact Hi|].
  apply nth_utilities_of; auto.
Qed.

Lemma utility_in_utilities_of (a v : ndarray) (i : nat) :
  wf_ndarray v -> wf_ndarray a -> shape a = shape v ->
  (i < fst (shape v))%nat ->
  exists x, In x (utilities_of a v) /\ x == utility a v i.
Proof.
  intros Hv Ha Hs Hi. exists (nth i (utilities_of a v) 0). split.
  - apply nth_In. rewrite length_utilities_of. exact Hi.
  - apply nth_utilities_of; auto.
Qed.

Lemma spec_program_with_floor (eps : Q) (v : ndarray) (s : assignment) (f : Q) :
  spec_program eps v s ->
  (forall i, (i < fst (shape v))%nat -> f <= utility (alloc_value s) v i + eps) ->
  spec_program eps v (mk_assignment (alloc_value s) f).
Proof. intros [Hb Hc _] Hf. constructor; cbn [alloc_value floor_value]; auto. Qed.

(** A program without agents has no optimum. *)
Lemma optimum_has_agent (eps : Q) (v : ndarray) (s : assignment) :
  wf_ndarray v -> optimal_within eps (the_program v) s ->
  feasible (the_program v) s -> (1 <= fst (shape v))%nat.
Proof.
  intros Hwf [_ Hopt] Hs.
  destruct (fst (shape v)) as [|n] eqn:En; [|lia]. exfalso.
  apply (feasible_within_meaning 0 v s Hwf) in Hs. destruct Hs as (Hs & Hw & Hp).
  assert (Hs' : feasible (the_program v)
                  (mk_assignment (alloc_value s) (floor_value s + eps + 1))).
  { apply (feasible_within_meaning 0 v _ Hwf). cbn [alloc_value].
    split; [exact Hs|]. split; [exact Hw|].
    apply spec_program_with_floor; [exact Hp|]. intros i Hi. lia. }
  specialize (Hopt _ (floor_value s) (floor_value s + eps + 1) Hs' eq_refl eq_refl).
  lra.
Qed.

(** At an exact optimum the floor is the least utility. *)
Lemma exact_floor_is_minimum (v : ndarray) (s : assignment) :
  wf_ndarray v -> optimal_within 0 (the_program v) s ->
  utilities_of (alloc_value s) v <> [] /\
  floor_value s == minimum (utilities_of (alloc_value s) v).
Proof.
  intros Hwf Hopt. pose proof Hopt as [Hfeas Hbest].
  pose proof (optimum_has_agent 0 v s Hwf Hopt Hfeas) as Hn.
  apply (feasible_within_meaning 0 v s Hwf) in Hfeas.
  destruct Hfeas as (Hs & Hw & Hp).
  assert (Hne : utilities_of (alloc_value s) v <> []).
  { intros E. apply (f_equal (@length Q)) in E.
    rewrite length_utilities_of in E. cbn in E. lia. }
  split; [exact Hne|]. apply Qle_antisym.
  - apply minimum_glb; [exact Hne|]. intros y Hy.
    destruct (in_utilities_of _ v y Hwf Hw Hs Hy) as (i & Hi & ->).
    pose proof (sp_floor _ _ _ Hp i Hi). lra.
  - assert (Hs' : feasible (the_program v)
        (mk_assignment (alloc_value s) (minimum (utilities_of (alloc_value s) v)))).
    { apply (feasible_within_meaning 0 v _ Hwf). cbn [alloc_value].
      split; [exact Hs|]. split; [exact Hw|].
      apply spec_program_with_floor; [exact Hp|]. intros i Hi.
      destruct (utility_in_utilities_of _ v i Hwf Hw Hs Hi) as (x & Hx & Ex).
      rewrite <- Ex. pose proof (minimum_le _ _ Hx). lra. }
    specialize (Hbest _ (floor_value s) _ Hs' eq_refl eq_refl).
    cbn [floor_value] in Hbest. lra.
Qed.

(** ** From an approximately feasible allocation to a feasible one *)

Lemma tabulate_wf (n m : nat) (f : nat -> nat -> Q) : wf_ndarray (tabulate n m f).
Proof.
  split; cbn.
  - unfold range. rewrite length_map, length_seq. reflexivity.
  - apply Forall_map_range. intros i _. unfold range.
    rewrite length_map, length_seq. reflexivity.
Qed.

Lemma nth_map_range {A : Type} (g : nat -> A) (d : A) (n i : nat) :
  (i < n)%nat -> nth i (map g (range n)) d = g i.
Proof.
  intros Hi. unfold range.
  rewrite (nth_indep _ d (g n)) by (rewrite length_map, length_seq; exact Hi).
  rewrite (map_nth g), seq_nth by exact Hi. reflexivity.
Qed.

Lemma entry_tabulate (n m : nat) (f : nat -> nat -> Q) (i j : nat) :
  (i < n)%nat -> (j < m)%nat -> entry (tabulate n m f) i j = f i j.
Proof.
  intros Hi Hj. unfold entry, tabulate. cbn [rows].
  rewrite nth_map_range by exact Hi. apply nth_map_range. exact Hj.
Qed.

Lemma big_sum_const (c : Q) (n : nat) : big_sum (fun _ => c) n == Qnat n * c.
Proof.
  induction n as [|n IH].
  - change (Qnat 0) with 0. cbn [big_sum]. lra.
  - cbn [big_sum]. rewrite IH. unfold Qnat.
    rewrite Nat2Z.inj_succ, <- Z.add_1_r, inject_Z_plus.
    change (inject_Z 1) with 1. lra.
Qed.

Lemma Qnat_pos (n : nat) : (1 <= n)%nat -> 1 <= Qnat n.
Proof.
  intros H. unfold Qnat. change 1 with (inject_Z 1).
  rewrite <- Zle_Qle. lia.
Qed.

Lemma big_sum_term_le (f : nat -> Q) (n i : nat) :
  (forall k, (k < n)%nat -> 0 <= f k) -> (i < n)%nat -> f i <= big_sum f n.
Proof.
  induction n as [|n IH]; intros Hf Hi; [lia|]. cbn [big_sum].
  assert (0 <= big_sum f n) by (apply big_sum_nonneg; intros; apply Hf; lia).
  assert (0 <= f n) by (apply Hf; lia).
  destruct (Nat.eq_dec i n) as [->|Hne].
  - lra.
  - assert (f i <= big_sum f n) by (apply IH; [intros; apply Hf; lia|lia]). lra.
Qed.

Section Repair.
Variables (eps : Q) (v : ndarray) (s : assignment).
Hypothesis eps_nonneg : 0 <= eps.
Hypothesis v_valid : valid_valuation v.
Hypothesis s_shape : shape (alloc_value s) = shape v.
Hypothesis s_wf : wf_ndarray (alloc_value s).
Hypothesis s_ok : spec_program eps v s.

Lemma slack_factor_pos : 1 <= slack_factor eps (fst (shape v)).
Proof.
  unfold slack_factor. destruct v_valid as (_ & Hn & _).
  pose proof (Qnat_pos _ Hn) as HN.
  assert (0 <= (Qnat (fst (shape v)) + 1) * eps)
    by (apply Qmult_le_0_compat; lra).
  lra.
Qed.

Lemma lifted_column_total (j : nat) :
  lifted_column eps (alloc_value s) j ==
  column_total (alloc_value s) j + Qnat (fst (shape v)) * eps.
Proof.
  unfold lifted_column, column_total. rewrite s_shape.
  rewrite big_sum_plus, big_sum_const. reflexivity.
Qed.

Lemma lifted_column_bounds (j : nat) :
  (j < snd (shape v))%nat ->
  1 <= lifted_column eps (alloc_value s) j <= slack_factor eps (fst (shape v)).
Proof.
  intros Hj. rewrite lifted_column_total. unfold slack_factor.
  destruct (sp_columns _ _ _ s_ok j Hj) as [Hle Hge].
  destruct v_valid as (_ & Hn & _). pose proof (Qnat_pos _ Hn) as HN.
  assert (0 <= (Qnat (fst (shape v)) - 1) * eps)
    by (apply Qmult_le_0_compat; lra).
  split; lra.
Qed.

Lemma entry_repair (i j : nat) :
  (i < fst (shape v))%nat -> (j < snd (shape v))%nat ->
  entry (repair eps (alloc_value s)) i j =
  (entry (alloc_value s) i j + eps) / lifted_column eps (alloc_value s) j.
Proof.
  intros Hi Hj. unfold repair. rewrite s_shape.
  apply (entry_tabulate _ _ (fun i j => (entry (alloc_value s) i j + eps) /
                                        lifted_column eps (alloc_value s) j));
    assumption.
Qed.

Lemma lifted_entry_nonneg (i j : nat) :
  (i < fst (shape v))%nat -> (j < snd (shape v))%nat ->
  0 <= entry (alloc_value s) i j + eps.
Proof. intros Hi Hj. apply (sp_bounds _ _ _ s_ok i j Hi Hj). Qed.

Lemma repair_entry_range (i j : nat) :
  (i < fst (shape v))%nat -> (j < snd (shape v))%nat ->
  0 <= entry (repair eps (alloc_value s)) i j <= 1.
Proof.
  intros Hi Hj. rewrite entry_repair by assumption.
  destruct (lifted_column_bounds j Hj) as [Hd _].
  pose proof (lifted_entry_nonneg i j Hi Hj) as Hx.
  split.
  - apply Qle_shift_div_l; lra.
  - apply Qle_shift_div_r; [lra|]. rewrite Qmult_1_l.
    unfold lifted_column. rewrite s_shape.
    apply (big_sum_term_le (fun k => entry (alloc_value s) k j + eps)).
    + intros k Hk. apply lifted_entry_nonneg; assumption.
    + exact Hi.
Qed.

Lemma repair_column_total (j : nat) :
  (j < snd (shape v))%nat ->
  column_total (repair eps (alloc_value s)) j == 1.
Proof.
  intros Hj. destruct (lifted_column_bounds j Hj) as [Hd _].
  unfold column_total.
  change (fst (shape (repair eps (alloc_value s))))
    with (fst (shape (alloc_value s))).
  rewrite s_shape.
  rewrite (big_sum_ext _ (fun i => / lifted_column eps (alloc_value s) j *
                                   (entry (alloc_value s) i j + eps))).
  - rewrite big_sum_scale.
    assert (E : big_sum (fun i => entry (alloc_value s) i j + eps) (fst (shape v))
                == lifted_column eps (alloc_value s) j)
      by (unfold lifted_column; rewrite s_shape; reflexivity).
    rewrite E. rewrite Qmult_comm. apply Qmult_inv_r. lra.
  - intros i Hi. rewrite entry_repair by assumption.
    unfold Qdiv. apply Qmult_comm.
Qed.
Lemma repair_utility (i : nat) :
  (i < fst (shape v))%nat ->
  utility (alloc_value s) v i <=
  utility (repair eps (alloc_value s)) v i * slack_factor eps (fst (shape v)).
Proof.
  intros Hi. unfold utility.
  rewrite Qmult_comm, <- big_sum_scale.
  apply big_sum_le. intros j Hj.
  rewrite entry_repair by assumption.
  destruct (lifted_column_bounds j Hj) as [Hd HD].
  pose proof (lifted_entry_nonneg i j Hi Hj) as Hx.
  assert (Hv : 0 <= entry v i j)
    by (apply entry_nonneg; apply v_valid).
  set (a := entry (alloc_value s) i j) in *.
  set (w := entry v i j) in *.
  set (d := lifted_column eps (alloc_value s) j) in *.
  set (D := slack_factor eps (fst (shape v))) in *.
  assert (Ht : d * ((a + eps) / d) == a + eps) by (apply Qmult_div_r; lra).
  assert (H0 : 0 <= (a + eps) / d) by (apply Qle_shift_div_l; lra).
  assert (H1 : 0 <= (a + eps) / d * w) by (apply Qmult_le_0_compat; assumption).
  assert (H2 : d * ((a + eps) / d * w) <= D * ((a + eps) / d * w))
    by (apply Qmult_le_compat_r; lra).
  assert (H3 : d * ((a + eps) / d * w) == (a + eps) * w)
    by (rewrite Qmult_assoc, Ht; reflexivity).
  assert (H4 : 0 <= eps * w) by (apply Qmult_le_0_compat; assumption).
  lra.
Qed.

Lemma repair_feasible (f : Q) :
  (forall i, (i < fst (shape v))%nat -> f <= utility (alloc_value s) v i) ->
  feasible (the_program v)
    (mk_assignment (repair eps (alloc_value s))
                   (f / slack_factor eps (fst (shape v)))).
Proof.
  intros Hf. pose proof slack_factor_pos as HD.
  apply feasible_within_meaning; [apply v_valid|]. cbn [alloc_value floor_value].
  split; [|split].
  - unfold repair. cbn [tabulate shape]. rewrite <- s_shape.
    destruct (shape (alloc_value s)); reflexivity.
  - apply tabulate_wf.
  - apply spec_program_exact. constructor; cbn [alloc_value floor_value].
    + intros i j Hi Hj. apply repair_entry_range; assumption.
    + intros j Hj. apply repair_column_total; assumption.
    + intros i Hi. apply Qle_shift_div_r; [lra|].
      eapply Qle_trans; [apply Hf; exact Hi|]. apply repair_utility. exact Hi.
Qed.
End Repair.

(** ** C6: floor consistency *)

(** C6. When the solver's answer is feasible and optimal up to [eps], the
    returned min_utility differs from the least entry of the returned
    utilities (recomputed from the allocation and the valuations) by at
    most [floor_tolerance]; for an exact solver ([eps] = 0) the two are
    equal. *)
Theorem C6_floor_is_least_utility (eps : Q) (cp : cvxpy)
    (v : ndarray) (r : Result) :
  0 <= eps ->
  valid_valuation v ->
  on_built_program (sound_optimal eps) cp v ->
  egalitarian_division cp v = Returns r ->
  r_utilities r <> [] /\
  Qabs (r_min_utility r - minimum (r_utilities r))
    <= floor_tolerance eps (fst (shape v)) (r_min_utility r) /\
  (eps == 0 -> r_min_utility r == minimum (r_utilities r)).
Proof.
  intros Heps Hv Hopt Hr. pose proof Hv as (Hwf & Hn & _).
  destruct (returned_call cp v r Hwf Hr) as (_ & out & Hout).
  apply (on_built_program_elim _ _ _ _ Hwf Hout) in Hopt.
  pose proof (sound_feasible_well_shaped _ _ _ (sound_optimal_feasible _ _ _ Hopt)) as Hsh.
  destruct (call_returns_inv cp v out r Hwf Hout Hsh Hr) as [Hst ->].
  cbn [r_utilities r_min_utility].
  destruct (Hopt Hst) as [Hfeas Hbest].
  set (s := primal out) in *.
  apply (feasible_within_meaning eps v s Hwf) in Hfeas.
  destruct Hfeas as (Hs & Hw & Hp).
  set (us := utilities_of (alloc_value s) v).
  assert (Hne : us <> []).
  { intros E. apply (f_equal (@length Q)) in E. unfold us in E.
    rewrite length_utilities_of in E. cbn in E. lia. }
  (* the floor is at most every utility, up to eps *)
  assert (H1 : floor_value s - eps <= minimum us).
  { apply minimum_glb; [exact Hne|]. intros y Hy.
    destruct (in_utilities_of _ v y Hwf Hw Hs Hy) as (i & Hi & ->).
    pose proof (sp_floor _ _ _ Hp i Hi). lra. }
  (* the repaired allocation with floor (minimum us / D) is feasible *)
  pose proof (slack_factor_pos eps v Heps Hv) as HD.
  assert (H2 : minimum us / slack_factor eps (fst (shape v)) <= floor_value s + eps).
  { apply (Hbest (mk_assignment (repair eps (alloc_value s))
                                (minimum us / slack_factor eps (fst (shape v))))
                 (floor_value s) _); [|reflexivity|reflexivity].
    apply (repair_feasible eps v s Heps Hv Hs Hp). intros i Hi.
    destruct (utility_in_utilities_of _ v i Hwf Hw Hs Hi) as (x & Hx & Ex).
    rewrite <- Ex. apply minimum_le. exact Hx. }
  assert (H3 : minimum us <= (floor_value s + eps) * slack_factor eps (fst (shape v))).
  { rewrite <- (Qmult_div_r (minimum us) (slack_factor eps (fst (shape v)))) at 1 by lra.
    rewrite Qmult_comm. apply Qmult_le_compat_r; lra. }
  (* the program has a feasible point with floor 0 *)
  assert (H4 : 0 <= floor_value s + eps).
  { apply (Hbest _ (floor_value s) 0 (program_feasible v Hv)); reflexivity. }
  assert (H5 : 0 <= eps * ((Qnat (fst (shape v)) + 1) * (floor_value s + eps))).
  { pose proof (Qnat_pos _ Hn).
    apply Qmult_le_0_compat; [exact Heps|]. apply Qmult_le_0_compat; lra. }
  unfold slack_factor in H3. unfold floor_tolerance.
  split; [exact Hne|]. split.
  - apply Qabs_Qle_condition. split; lra.
  - intros E. rewrite E in H1, H3. apply Qle_antisym; lra.
Qed.

Lemma C6_floor_is_least_utility_witness :
  r_utilities scenario3_result <> [] /\
  Qabs (r_min_utility scenario3_result - minimum (r_utilities scenario3_result))
    <= floor_tolerance 0 2 (r_min_utility scenario3_result) /\
  (0 == 0 -> r_min_utility scenario3_result == minimum (r_utilities scenario3_result)).
Proof.
  apply (C6_floor_is_least_utility 0 (mock scenario3_solver) unequal scenario3_result).
  - vm_compute. discriminate.
  - apply valid_valuationb_spec. vm_compute. reflexivity.
  - apply scenario3_solver_sound. vm_compute. discriminate.
  - vm_compute. reflexivity.
Defined.

(** ** Tight optima under strictly positive valuations *)

Lemma big_sum_replace (h : nat -> Q) (x : Q) (k n : nat) :
  (k < n)%nat ->
  big_sum (fun i => if Nat.eqb i k then x else h i) n == big_sum h n - h k + x.
Proof.
  induction n as [|n IH]; intros Hk; [lia|]. cbn [big_sum].
  destruct (Nat.eq_dec k n) as [->|Hne].
  - rewrite Nat.eqb_refl.
    rewrite (big_sum_ext _ h).
    + lra.
    + intros i Hi. destruct (Nat.eqb_spec i n); [lia|reflexivity].
  - rewrite IH by lia.
    destruct (Nat.eqb_spec n k); [lia|]. lra.
Qed.

Lemma big_sum_zero_terms (f : nat -> Q) (n : nat) :
  (forall i, (i < n)%nat -> 0 <= f i) -> big_sum f n <= 0 ->
  forall i, (i < n)%nat -> f i == 0.
Proof.
  intros Hf Hs i Hi. pose proof (big_sum_term_le f n i Hf Hi).
  pose proof (Hf i Hi). lra.
Qed.

Lemma minimum_glb_lt (l : list Q) (b : Q) :
  l <> [] -> (forall y, In y l -> b < y) -> b < minimum l.
Proof.
  destruct l as [|x xs]; [congruence|]. intros _ H. cbn.
  assert (Hx : b < x) by (apply H; left; reflexivity).
  assert (Hxs : forall y, In y xs -> b < y) by (intros; apply H; right; assumption).
  clear H. induction xs as [|z zs IH]; cbn.
  - exact Hx.
  - apply Q.min_glb_lt.
    + apply Hxs. left. reflexivity.
    + apply IH. intros y Hy. apply Hxs. right. exact Hy.
Qed.

Lemma Qnat_succ (n : nat) : Qnat (S n) == Qnat n + 1.
Proof.
  unfold Qnat. rewrite Nat2Z.inj_succ, <- Z.add_1_r, inject_Z_plus.
  reflexivity.
Qed.

Section Transfer.
Variables (v : ndarray) (s : assignment) (k : nat) (t c : Q).
Hypothesis v_wf : wf_ndarray v.
Hypothesis s_shape : shape (alloc_value s) = shape v.
Hypothesis s_exact : exact_program v s.
Hypothesis k_agent : (k < fst (shape v))%nat.
Hypothesis t_range : 0 <= t <= 1.
Hypothesis c_nonneg : 0 <= c.
Hypothesis c_share : (Qnat (fst (shape v)) - 1) * c == t.

Lemma entry_transfer (i j : nat) :
  (i < fst (shape v))%nat -> (j < snd (shape v))%nat ->
  entry (transfer (alloc_value s) k t c) i j =
  if Nat.eqb i k then (1 - t) * entry (alloc_value s) k j
  else entry (alloc_value s) i j + c * entry (alloc_value s) k j.
Proof.
  intros Hi Hj. unfold transfer. rewrite s_shape.
  apply (entry_tabulate _ _
    (fun i j => if Nat.eqb i k then (1 - t) * entry (alloc_value s) k j
                else entry (alloc_value s) i j + c * entry (alloc_value s) k j));
    assumption.
Qed.

Lemma transfer_entry_nonneg (i j : nat) :
  (i < fst (shape v))%nat -> (j < snd (shape v))%nat ->
  0 <= entry (transfer (alloc_value s) k t c) i j.
Proof.
  intros Hi Hj. rewrite entry_transfer by assumption.
  pose proof (ep_bounds _ _ s_exact k j k_agent Hj) as [Hk0 _].
  pose proof (ep_bounds _ _ s_exact i j Hi Hj) as [Hi0 _].
  destruct (Nat.eqb i k).
  - apply Qmult_le_0_compat; lra.
  - assert (0 <= c * entry (alloc_value s) k j)
      by (apply Qmult_le_0_compat; assumption).
    lra.
Qed.

Lemma transfer_column_total (j : nat) :
  (j < snd (shape v))%nat ->
  column_total (transfer (alloc_value s) k t c) j == 1.
Proof.
  intros Hj. unfold column_total.
  change (fst (shape (transfer (alloc_value s) k t c)))
    with (fst (shape (alloc_value s))).
  rewrite s_shape.
  rewrite (big_sum_ext _
    (fun i => if Nat.eqb i k then (1 - t) * entry (alloc_value s) k j
              else entry (alloc_value s) i j + c * entry (alloc_value s) k j))
    by (intros i Hi; rewrite entry_transfer by assumption; reflexivity).
  rewrite (big_sum_replace
    (fun i => entry (alloc_value s) i j + c * entry (alloc_value s) k j))
    by exact k_agent.
  rewrite big_sum_plus, big_sum_const.
  pose proof (ep_columns _ _ s_exact j Hj) as Hc.
  unfold column_total in Hc. rewrite s_shape in Hc. rewrite Hc.
  assert (E : (Qnat (fst (shape v)) - 1) * c * entry (alloc_value s) k j
              == t * entry (alloc_value s) k j)
    by (rewrite c_share; reflexivity).
  lra.
Qed.

Lemma transfer_entry_le_one (i j : nat) :
  (i < fst (shape v))%nat -> (j < snd (shape v))%nat ->
  entry (transfer (alloc_value s) k t c) i j <= 1.
Proof.
  intros Hi Hj. rewrite <- (transfer_column_total j Hj).
  unfold column_total.
  change (fst (shape (transfer (alloc_value s) k t c)))
    with (fst (shape (alloc_value s))).
  rewrite s_shape.
  apply (big_sum_term_le (fun i => entry (transfer (alloc_value s) k t c) i j)).
  - intros i' Hi'. apply transfer_entry_nonneg; assumption.
  - exact Hi.
Qed.

Lemma transfer_utility_self :
  utility (transfer (alloc_value s) k t c) v k ==
  (1 - t) * utility (alloc_value s) v k.
Proof.
  unfold utility. rewrite <- big_sum_scale. apply big_sum_ext.
  intros j Hj. rewrite entry_transfer by assumption.
  rewrite Nat.eqb_refl. lra.
Qed.

Lemma transfer_utility_other (i : nat) :
  (i < fst (shape v))%nat -> i <> k ->
  utility (transfer (alloc_value s) k t c) v i ==
  utility (alloc_value s) v i +
  c * big_sum (fun j => entry (alloc_value s) k j * entry v i j) (snd (shape v)).
Proof.
  intros Hi Hne. unfold utility.
  rewrite <- big_sum_scale, <- big_sum_plus. apply big_sum_ext.
  intros j Hj. rewrite entry_transfer by assumption.
  destruct (Nat.eqb_spec i k); [contradiction|]. lra.
Qed.

Lemma transfer_feasible (f : Q) :
  (forall i, (i < fst (shape v))%nat ->
             f <= utility (transfer (alloc_value s) k t c) v i) ->
  feasible (the_program v) (mk_assignment (transfer (alloc_value s) k t c) f).
Proof.
  intros Hf. apply feasible_within_meaning; [exact v_wf|].
  cbn [alloc_value floor_value]. split; [|split].
  - unfold transfer. cbn [tabulate shape]. rewrite <- s_shape.
    destruct (shape (alloc_value s)); reflexivity.
  - apply tabulate_wf.
  - apply spec_program_exact. constructor; cbn [alloc_value floor_value].
    + intros i j Hi Hj. split.
      * apply transfer_entry_nonneg; assumption.
      * apply transfer_entry_le_one; assumption.
    + intros j Hj. apply transfer_column_total; assumption.
    + exact Hf.
Qed.
End Transfer.

Lemma transfer_shape (a : ndarray) (k : nat) (t c : Q) :
  shape (transfer a k t c) = shape a.
Proof. unfold transfer. cbn. destruct (shape a); reflexivity. Qed.

(** With one agent the floor is that agent's utility. *)
Lemma single_agent_tight (v : ndarray) (s : assignment) :
  wf_ndarray v -> fst (shape v) = 1%nat ->
  optimal_within 0 (the_program v) s ->
  utility (alloc_value s) v 0 <= floor_value s.
Proof.
  intros Hwf Hn [Hfeas Hbest].
  apply (feasible_within_meaning 0 v s Hwf) in Hfeas.
  destruct Hfeas as (Hs & Hw & Hp).
  assert (Hs' : feasible (the_program v)
                  (mk_assignment (alloc_value s) (utility (alloc_value s) v 0))).
  { apply (feasible_within_meaning 0 v _ Hwf). cbn [alloc_value].
    split; [exact Hs|]. split; [exact Hw|].
    apply spec_program_with_floor; [exact Hp|]. intros i Hi.
    assert (i = 0%nat) as -> by lia. lra. }
  specialize (Hbest _ (floor_value s) _ Hs' eq_refl eq_refl).
  cbn [floor_value] in Hbest. lra.
Qed.

(** An agent with a positive utility holds something every other agent
    values, when all valuations are strictly positive. *)
Lemma holdings_valued_by_others (v : ndarray) (s : assignment) (k i : nat) :
  positive v -> exact_program v s ->
  (k < fst (shape v))%nat -> (i < fst (shape v))%nat ->
  0 < utility (alloc_value s) v k ->
  0 < big_sum (fun j => entry (alloc_value s) k j * entry v i j) (snd (shape v)).
Proof.
  intros Hpos Hex Hk Hi Hu.
  destruct (Qlt_le_dec 0 (big_sum (fun j => entry (alloc_value s) k j * entry v i j)
                                  (snd (shape v)))) as [H|H]; [exact H|].
  exfalso.
  assert (Hz : forall j, (j < snd (shape v))%nat -> entry (alloc_value s) k j == 0).
  { intros j Hj.
    pose proof (big_sum_zero_terms
                  (fun j => entry (alloc_value s) k j * entry v i j) (snd (shape v))) as Hterms.
    cbv beta in Hterms.
    assert (Hnn : forall j, (j < snd (shape v))%nat ->
                            0 <= entry (alloc_value s) k j * entry v i j).
    { intros l Hl. apply Qmult_le_0_compat.
      - apply (ep_bounds _ _ Hex k l Hk Hl).
      - apply Qlt_le_weak. apply Hpos; assumption. }
    specialize (Hterms Hnn H j Hj).
    apply Qmult_integral in Hterms. destruct Hterms as [E|E]; [exact E|].
    pose proof (Hpos i j Hi Hj). lra. }
  unfold utility in Hu.
  rewrite (big_sum_ext _ (fun _ => 0)) in Hu.
  - rewrite big_sum_zero in Hu. lra.
  - intros j Hj. rewrite (Hz j Hj). lra.
Qed.

(** At an exact optimum of a strictly positive matrix every agent's utility
    equals the floor. *)
Lemma exact_optimum_tight (v : ndarray) (s : assignment) (k : nat) :
  valid_valuation v -> positive v ->
  optimal_within 0 (the_program v) s ->
  (k < fst (shape v))%nat ->
  utility (alloc_value s) v k == floor_value s.
Proof.
  intros Hv Hpos Hopt Hk. pose proof Hv as (Hwf & Hn & Hm & Hnn).
  pose proof Hopt as [Hfeas Hbest].
  apply (feasible_within_meaning 0 v s Hwf) in Hfeas.
  destruct Hfeas as (Hs & Hw & Hp).
  pose proof (proj1 (spec_program_exact v s) Hp) as Hex.
  pose proof (ep_floor _ _ Hex k Hk) as Hfu.
  apply Qle_antisym; [|exact Hfu].
  destruct (Qlt_le_dec (floor_value s) (utility (alloc_value s) v k)) as [Hlt|Hle];
    [exfalso|exact Hle].
  assert (H0 : 0 <= floor_value s).
  { pose proof (Hbest _ (floor_value s) 0 (program_feasible v Hv) eq_refl eq_refl).
    lra. }
  destruct (Nat.eq_dec (fst (shape v)) 1) as [H1|H1].
  - assert (k = 0%nat) as -> by lia.
    pose proof (single_agent_tight v s Hwf H1 Hopt). lra.
  - set (u := utility (alloc_value s) v k) in *.
    set (f := floor_value s) in *.
    set (N := Qnat (fst (shape v))).
    assert (HN : 2 <= N).
    { unfold N. destruct (fst (shape v)) as [|[|n]]; [lia|lia|].
      rewrite Qnat_succ. pose proof (Qnat_pos (S n) ltac:(lia)). lra. }
    set (t := (u - f) / (2 * u)).
    set (c := t / (N - 1)).
    assert (Htu : (2 * u) * t == u - f) by (apply Qmult_div_r; lra).
    assert (Ht0 : 0 < t) by (apply Qlt_shift_div_l; lra).
    assert (Ht1 : t <= 1) by (apply Qle_shift_div_r; lra).
    assert (Hc : (N - 1) * c == t) by (apply Qmult_div_r; lra).
    assert (Hc0 : 0 < c) by (apply Qlt_shift_div_l; lra).
    assert (Ht : 0 <= t <= 1) by (split; lra).
    assert (Hcn : 0 <= c) by lra.
    set (a' := transfer (alloc_value s) k t c).
    assert (Hs' : shape a' = shape v) by (unfold a'; rewrite transfer_shape; exact Hs).
    assert (Hw' : wf_ndarray a') by apply tabulate_wf.
    assert (Hgain : forall y, In y (utilities_of a' v) -> f < y).
    { intros y Hy.
      destruct (in_utilities_of a' v y Hwf Hw' Hs' Hy) as (i & Hi & ->).
      destruct (Nat.eq_dec i k) as [->|Hne].
      - unfold a'. rewrite (transfer_utility_self v s k t c) by assumption.
        fold u. lra.
      - unfold a'. rewrite (transfer_utility_other v s k t c) by assumption.
        pose proof (ep_floor _ _ Hex i Hi) as Hfi. fold f in Hfi.
        assert (Hw0 : 0 < big_sum (fun j => entry (alloc_value s) k j * entry v i j)
                                  (snd (shape v))).
        { apply holdings_valued_by_others; try assumption. fold u. lra. }
        pose proof (Qmult_lt_0_compat _ _ Hc0 Hw0). lra. }
    assert (Hne : utilities_of a' v <> []).
    { intros E. apply (f_equal (@length Q)) in E.
      rewrite length_utilities_of in E. cbn in E. lia. }
    pose proof (minimum_glb_lt _ f Hne Hgain) as Hmin.
    assert (Hfeas' : feasible (the_program v)
                       (mk_assignment a' (minimum (utilities_of a' v)))).
    { unfold a'. apply (transfer_feasible v s k t c); try assumption.
      intros i Hi. fold a'.
      destruct (utility_in_utilities_of a' v i Hwf Hw' Hs' Hi) as (x & Hx & Ex).
      rewrite <- Ex. apply minimum_le. exact Hx. }
    specialize (Hbest _ f _ Hfeas' eq_refl eq_refl).
    cbn [floor_value] in Hbest. lra.
Qed.

(** ** Raising one valuation

    Whether agent i's own utility can fall when valuation[i][j] rises is
    not decided by the program: the objective fixes the floor only, and
    which of several optimal allocations comes back is the solver's choice.
    What the program does decide is proved here. *)

Lemma raise_entry_shape (v : ndarray) (i j : nat) (d : Q) :
  shape (raise_entry v i j d) = shape v.
Proof. unfold raise_entry. cbn. destruct (shape v); reflexivity. Qed.

Lemma raise_entry_wf (v : ndarray) (i j : nat) (d : Q) :
  wf_ndarray (raise_entry v i j d).
Proof. apply tabulate_wf. Qed.

Lemma entry_raise_entry (v : ndarray) (i j : nat) (d : Q) (k l : nat) :
  (k < fst (shape v))%nat -> (l < snd (shape v))%nat ->
  entry (raise_entry v i j d) k l =
  if Nat.eqb k i && Nat.eqb l j then entry v k l + d else entry v k l.
Proof.
  intros Hk Hl. unfold raise_entry.
  apply (entry_tabulate _ _ (fun k l => if Nat.eqb k i && Nat.eqb l j
                                        then entry v k l + d else entry v k l));
    assumption.
Qed.

Lemma entry_raise_entry_le (v : ndarray) (i j : nat) (d : Q) (k l : nat) :
  0 <= d -> (k < fst (shape v))%nat -> (l < snd (shape v))%nat ->
  entry v k l <= entry (raise_entry v i j d) k l.
Proof.
  intros Hd Hk Hl. rewrite entry_raise_entry by assumption.
  destruct (Nat.eqb k i && Nat.eqb l j); lra.
Qed.

Lemma utility_raise_entry_le (a v : ndarray) (i j : nat) (d : Q) (k : nat) :
  0 <= d -> (k < fst (shape v))%nat ->
  (forall l, (l < snd (shape v))%nat -> 0 <= entry a k l) ->
  utility a v k <= utility a (raise_entry v i j d) k.
Proof.
  intros Hd Hk Ha. unfold utility. rewrite raise_entry_shape.
  apply big_sum_le. intros l Hl.
  rewrite !(Qmult_comm (entry a k l)).
  apply Qmult_le_compat_r; [|apply Ha; exact Hl].
  apply entry_raise_entry_le; assumption.
Qed.

Lemma feasible_after_raise (v : ndarray) (i j : nat) (d : Q) (s : assignment) :
  wf_ndarray v -> 0 <= d ->
  feasible (the_program v) s ->
  feasible (the_program (raise_entry v i j d)) s.
Proof.
  intros Hwf Hd Hs.
  apply (feasible_within_meaning 0 v s Hwf) in Hs. destruct Hs as (Hs & Hw & Hp).
  apply (feasible_within_meaning 0 _ s (raise_entry_wf v i j d)).
  rewrite raise_entry_shape. split; [exact Hs|]. split; [exact Hw|].
  apply spec_program_exact in Hp. apply spec_program_exact.
  destruct Hp as [Hb Hc Hf]. constructor; rewrite ?raise_entry_shape.
  - exact Hb.
  - exact Hc.
  - intros k Hk. eapply Qle_trans; [apply Hf; exact Hk|].
    apply utility_raise_entry_le; [exact Hd|exact Hk|].
    intros l Hl. apply Hb; assumption.
Qed.

Lemma optimal_within_exact (eps : Q) (v : ndarray) (s : assignment) :
  wf_ndarray v -> eps == 0 ->
  optimal_within eps (the_program v) s -> optimal_within 0 (the_program v) s.
Proof.
  intros Hwf E [Hfeas Hbest]. split.
  - apply (feasible_within_meaning eps v s Hwf) in Hfeas.
    destruct Hfeas as (Hs & Hw & [Hb Hc Hf]).
    apply (feasible_within_meaning 0 v s Hwf).
    split; [exact Hs|]. split; [exact Hw|]. constructor.
    + intros i j Hi Hj. specialize (Hb i j Hi Hj). rewrite E in Hb. exact Hb.
    + intros j Hj. specialize (Hc j Hj). rewrite E in Hc. exact Hc.
    + intros i Hi. specialize (Hf i Hi). rewrite E in Hf. exact Hf.
  - intros s' q q' Hs' Hq Hq'. rewrite <- E. eapply Hbest; eassumption.
Qed.

(** X11. Raising one valuation by [d >= 0] never lowers the
    achieved min_utility: with a solver accurate to [eps] the earlier floor
    is at most the later floor up to the slack of [eps], and so is at most
    agent i's later utility; for an exact solver the later floor and agent
    i's later utility are both at least the earlier floor.  When moreover
    every valuation is strictly positive, agent i's utility at an exact
    optimum equals the floor, and so never decreases. *)
Theorem X11_raising_a_valuation (eps : Q) (cp : cvxpy)
    (v : ndarray) (i j : nat) (d : Q) (r r' : Result) :
  0 <= eps ->
  valid_valuation v ->
  (i < fst (shape v))%nat -> (j < snd (shape v))%nat ->
  0 <= d ->
  on_built_program (sound_optimal eps) cp v ->
  on_built_program (sound_optimal eps) cp (raise_entry v i j d) ->
  egalitarian_division cp v = Returns r ->
  egalitarian_division cp (raise_entry v i j d) = Returns r' ->
  r_min_utility r - eps
    <= (r_min_utility r' + eps) * slack_factor eps (fst (shape v)) /\
  r_min_utility r - eps
    <= (nth i (r_utilities r') 0 + eps + eps) * slack_factor eps (fst (shape v)) /\
  (eps == 0 ->
   r_min_utility r <= r_min_utility r' /\
   r_min_utility r <= nth i (r_utilities r') 0 /\
   (positive v -> nth i (r_utilities r) 0 <= nth i (r_utilities r') 0)).
Proof.
  intros Heps Hv Hi Hj Hd Hopt Hopt' Hr Hr'. pose proof Hv as (Hwf & Hn & _).
  pose proof (raise_entry_wf v i j d) as Hwf'.
  destruct (returned_call cp v r Hwf Hr) as (_ & out & Hout).
  destruct (returned_call cp _ r' Hwf' Hr') as (_ & out' & Hout').
  apply (on_built_program_elim _ _ _ _ Hwf Hout) in Hopt.
  apply (on_built_program_elim _ _ _ _ Hwf' Hout') in Hopt'.
  pose proof (sound_feasible_well_shaped _ _ _ (sound_optimal_feasible _ _ _ Hopt)) as Hsh.
  pose proof (sound_feasible_well_shaped _ _ _ (sound_optimal_feasible _ _ _ Hopt')) as Hsh'.
  destruct (call_returns_inv cp v out r Hwf Hout Hsh Hr) as [Hst ->].
  destruct (call_returns_inv cp _ out' r' Hwf' Hout' Hsh' Hr') as [Hst' ->].
  cbn [r_utilities r_min_utility].
  pose proof (Hopt Hst) as Hbefore.
  destruct (Hopt Hst) as [Hfeas _]. destruct (Hopt' Hst') as [Hfeas' Hbest'].
  set (s := primal out) in *.
  set (s' := primal out') in *.
  apply (feasible_within_meaning eps v s Hwf) in Hfeas.
  destruct Hfeas as (Hs & Hw & Hp).
  apply (feasible_within_meaning eps _ s' Hwf') in Hfeas'.
  destruct Hfeas' as (Hs' & Hw' & Hp').
  pose proof (slack_factor_pos eps v Heps Hv) as HD.
  set (D := slack_factor eps (fst (shape v))) in *.
  (* the repaired earlier allocation is feasible for the raised matrix *)
  assert (H1 : (floor_value s - eps) / D <= floor_value s' + eps).
  { apply (Hbest' (mk_assignment (repair eps (alloc_value s))
                                 ((floor_value s - eps) / D))
                  (floor_value s') _); [|reflexivity|reflexivity].
    apply feasible_after_raise; [exact Hwf|exact Hd|].
    apply (repair_feasible eps v s Heps Hv Hs Hp). intros k Hk.
    pose proof (sp_floor _ _ _ Hp k Hk). lra. }
  assert (H2 : floor_value s - eps <= (floor_value s' + eps) * D).
  { rewrite <- (Qmult_div_r (floor_value s - eps) D) at 1 by lra.
    rewrite Qmult_comm. apply Qmult_le_compat_r; lra. }
  (* the later floor is at most agent i's later utility *)
  assert (H3 : floor_value s' <= nth i (utilities_of (alloc_value s') (raise_entry v i j d)) 0 + eps).
  { rewrite nth_utilities_of; [|exact Hwf'|exact Hw'|exact Hs'|rewrite raise_entry_shape; exact Hi].
    apply (sp_floor _ _ _ Hp'). rewrite raise_entry_shape. exact Hi. }
  split; [exact H2|]. split.
  - eapply Qle_trans; [exact H2|]. apply Qmult_le_compat_r; lra.
  - intros E. unfold D, slack_factor in H2. rewrite E in H2, H3.
    split; [lra|]. split; [lra|]. intros Hpos.
    (* positive valuations: agent i's earlier utility is the earlier floor *)
    pose proof (exact_optimum_tight v s i Hv Hpos
                  (optimal_within_exact eps v s Hwf E Hbefore) Hi) as Htight.
    rewrite (nth_utilities_of (alloc_value s) v i Hwf Hw Hs Hi).
    lra.
Qed.

(** *** A solver that breaks ties differently on two inputs *)

Lemma indifferent_wf : wf_ndarray indifferent.
Proof. apply wf_ndarrayb_spec. reflexivity. Qed.

Lemma indifferent_raised_wf : wf_ndarray indifferent_raised.
Proof. apply wf_ndarrayb_spec. reflexivity. Qed.

(** Whatever the allocation, the second agent's utility is 0 here. *)
Lemma indifferent_bound (v : ndarray) (s : assignment) :
  wf_ndarray v -> shape v = (2%nat, 2%nat) ->
  entry v 1 0 == 0 -> entry v 1 1 == 0 ->
  feasible (the_program v) s -> floor_value s <= 0.
Proof.
  intros Hwf Hsh E0 E1 Hs.
  apply (feasible_within_meaning 0 v s Hwf) in Hs.
  destruct Hs as (_ & _ & Hs). apply spec_program_exact in Hs.
  destruct Hs as [_ _ Hf]. rewrite Hsh in Hf.
  pose proof (Hf 1%nat ltac:(cbn; lia)) as F1.
  unfold utility in F1. rewrite Hsh in F1. cbn [snd big_sum] in F1.
  rewrite E0, E1 in F1. lra.
Qed.

Lemma tie_optimal (v : ndarray) (s : assignment) :
  wf_ndarray v -> shape v = (2%nat, 2%nat) ->
  entry v 1 0 == 0 -> entry v 1 1 == 0 ->
  floor_value s = 0 ->
  feasible (the_program v) s ->
  optimal_within 0 (the_program v) s.
Proof.
  intros Hwf Hsh E0 E1 Hfl Hs. split; [exact Hs|].
  intros s' q q' Hs' Hq Hq'. rewrite objective_value_program in Hq, Hq'.
  injection Hq as <-. injection Hq' as <-. rewrite Hfl.
  pose proof (indifferent_bound v s' Hwf Hsh E0 E1 Hs'). lra.
Qed.

Ltac check_feasible v Hwf :=
  apply (feasible_within_meaning 0 v _ Hwf);
  split; [reflexivity|]; split; [apply wf_ndarrayb_spec; reflexivity|];
  apply spec_program_exact; constructor;
  [ intros i j Hi Hj;
    destruct i as [|[|i]]; [| |exfalso; cbn in Hi; lia];
    (destruct j as [|[|j]]; [| |exfalso; cbn in Hj; lia]);
    vm_compute; intuition discriminate
  | intros j Hj; destruct j as [|[|j]]; [| |exfalso; cbn in Hj; lia];
    vm_compute; reflexivity
  | intros i Hi; destruct i as [|[|i]]; [| |exfalso; cbn in Hi; lia];
    vm_compute; discriminate ].

Lemma tie_solver_sound_before :
  on_built_program (sound_optimal 0) (mock tie_solver) indifferent.
Proof.
  apply on_built_program_mock; [exact indifferent_wf|]. intros _.
  change (primal (tie_solver (the_program indifferent))) with all_to_agent0.
  apply tie_optimal; try reflexivity; [exact indifferent_wf|].
  check_feasible indifferent indifferent_wf.
Qed.

Lemma tie_solver_sound_after :
  on_built_program (sound_optimal 0) (mock tie_solver) indifferent_raised.
Proof.
  apply on_built_program_mock; [exact indifferent_raised_wf|]. intros _.
  change (primal (tie_solver (the_program indifferent_raised))) with all_to_agent1.
  apply tie_optimal; try reflexivity; [exact indifferent_raised_wf|].
  check_feasible indifferent_raised indifferent_raised_wf.
Qed.

(** Optimality alone does not fix agent i's utility.  The valuations
    [[1,1],[0,0]] are valid; raising entry (0,0) from 1 to 2 leaves every
    allocation optimal (the floor is 0 either way).  An answer of
    [[1,1],[0,0]] before and of [[0,0],[1,1]] after is exactly optimal both
    times, and agent 0's utility is 2 before and 0 after. *)
Remark tie_breaking_can_lower_utility :
  valid_valuation indifferent /\
  rows indifferent = [[1; 1]; [0; 0]] /\
  rows (raise_entry indifferent 0 0 1) = [[2; 1]; [0; 0]] /\
  on_built_program (sound_optimal 0) (mock tie_solver) indifferent /\
  on_built_program (sound_optimal 0) (mock tie_solver) (raise_entry indifferent 0 0 1) /\
  egalitarian_division (mock tie_solver) indifferent = Returns tie_result_before /\
  egalitarian_division (mock tie_solver) (raise_entry indifferent 0 0 1) =
    Returns tie_result_after /\
  nth 0 (r_utilities tie_result_after) 0 < nth 0 (r_utilities tie_result_before) 0.
Proof.
  split; [apply valid_valuationb_spec; reflexivity|].
  split; [reflexivity|]. split; [vm_compute; reflexivity|].
  split; [exact tie_solver_sound_before|].
  split; [exact tie_solver_sound_after|].
  split; [vm_compute; reflexivity|].
  split; [vm_compute; reflexivity|].
  vm_compute. reflexivity.
Qed.

(** *** A strictly positive instance *)

Lemma unequal_raised_wf : wf_ndarray unequal_raised.
Proof. apply wf_ndarrayb_spec. reflexivity. Qed.

Lemma unequal_positive : positive unequal.
Proof.
  intros i j Hi Hj.
  destruct i as [|[|i]]; [| |exfalso; cbn in Hi; lia];
    (destruct j as [|[|j]]; [| |exfalso; cbn in Hj; lia]);
    vm_compute; reflexivity.
Qed.

Lemma unequal_raised_feasible :
  feasible (the_program unequal_raised) unequal_raised_optimum.
Proof. check_feasible unequal_raised unequal_raised_wf. Qed.

(** Every feasible floor of the raised matrix is at most 101/51. *)
Lemma unequal_raised_bound (s : assignment) :
  feasible (the_program unequal_raised) s -> floor_value s <= 101#51.
Proof.
  intros Hs. apply (feasible_within_meaning 0 _ _ unequal_raised_wf) in Hs.
  destruct Hs as (Hsh & _ & Hs). apply spec_program_exact in Hs.
  destruct Hs as [Hb Hc Hf].
  change (shape unequal_raised) with (2%nat, 2%nat) in *.
  pose proof (Hb 0%nat 1%nat ltac:(cbn; lia) ltac:(cbn; lia)) as B01.
  pose proof (Hc 0%nat ltac:(cbn; lia)) as C0.
  pose proof (Hc 1%nat ltac:(cbn; lia)) as C1.
  pose proof (Hf 0%nat ltac:(cbn; lia)) as F0.
  pose proof (Hf 1%nat ltac:(cbn; lia)) as F1.
  unfold column_total, utility in *. rewrite Hsh in *.
  change (shape unequal_raised) with (2%nat, 2%nat) in *.
  cbn [fst snd big_sum] in *.
  change (entry unequal_raised 0 0) with (100 + 1) in F0.
  change (entry unequal_raised 0 1) with 100 in F0.
  change (entry unequal_raised 1 0) with 1 in F1.
  change (entry unequal_raised 1 1) with 1 in F1.
  lra.
Qed.

Lemma raised_solver_sound_before :
  on_built_program (sound_optimal 0) (mock raised_solver) unequal.
Proof.
  apply on_built_program_mock; [exact unequal_wf|]. intros _.
  change (primal (raised_solver (the_program unequal))) with unequal_optimum.
  apply scenario3_optimal. lra.
Qed.

Lemma raised_solver_sound_after :
  on_built_program (sound_optimal 0) (mock raised_solver) (raise_entry unequal 0 0 1).
Proof.
  apply on_built_program_mock; [exact unequal_raised_wf|]. intros _.
  change (primal (raised_solver (the_program (raise_entry unequal 0 0 1))))
    with unequal_raised_optimum.
  split; [exact unequal_raised_feasible|].
  intros s' q q' Hs' Hq Hq'. rewrite objective_value_program in Hq, Hq'.
  injection Hq as <-. injection Hq' as <-.
  pose proof (unequal_raised_bound s' Hs'). cbn [unequal_raised_optimum floor_value].
  lra.
Qed.

Lemma X11_raising_a_valuation_witness :
  r_min_utility scenario3_result - 0
    <= (r_min_utility unequal_raised_result + 0) * slack_factor 0 2 /\
  r_min_utility scenario3_result - 0
    <= (nth 0 (r_utilities unequal_raised_result) 0 + 0 + 0) * slack_factor 0 2 /\
  (0 == 0 ->
   r_min_utility scenario3_result <= r_min_utility unequal_raised_result /\
   r_min_utility scenario3_result <= nth 0 (r_utilities unequal_raised_result) 0 /\
   (positive unequal ->
    nth 0 (r_utilities scenario3_result) 0
      <= nth 0 (r_utilities unequal_raised_result) 0)).
Proof.
  apply (X11_raising_a_valuation 0 (mock raised_solver) unequal 0 0 1
           scenario3_result unequal_raised_result).
  - vm_compute. discriminate.
  - apply valid_valuationb_spec. vm_compute. reflexivity.
  - vm_compute. lia.
  - vm_compute. lia.
  - vm_compute. discriminate.
  - exact raised_solver_sound_before.
  - exact raised_solver_sound_after.
  - vm_compute. reflexivity.
  - vm_compute. reflexivity.
Defined.

(** ** C8: scenario 3 *)

(** C8, counterexample.  On [[100,100],[1,1]] with a solver that returns
    the exact optimum and status optimal, the agent with the low
    valuations is agent 1 (row [1,1]); the sum of that agent's row is
    200/101, which is not below 0.1. *)
Lemma C8_counterexample :
  on_built_program (sound_optimal 0) (mock scenario3_solver) unequal /\
  egalitarian_division (mock scenario3_solver) unequal = Returns scenario3_result /\
  r_status scenario3_result = "optimal"%string /\
  rows unequal = [[100; 100]; [1; 1]] /\
  row_total (r_allocations scenario3_result) 1 == 200#101 /\
  ~ row_total (r_allocations scenario3_result) 1 < 1#10.
Proof.
  split; [apply scenario3_solver_sound; lra|].
  split; [vm_compute; reflexivity|].
  split; [reflexivity|]. split; [reflexivity|].
  split; [vm_compute; reflexivity|].
  vm_compute. discriminate.
Qed.

(** C8 (as amended). On [[100,100],[1,1]], whenever the solver's answer is
    feasible and optimal up to a tolerance of at most 0.01, the call
    returns the solver's status, and the agent whose row sum is below 0.1
    is agent 0, the one with the high valuations; the agent with the low
    valuations receives a total share above 1.9. *)
Theorem C8_high_valuer_gets_little (eps : Q) (cp : cvxpy)
    (r : Result) :
  0 <= eps -> eps <= 1#100 ->
  on_built_program (sound_optimal eps) cp unequal ->
  egalitarian_division cp unequal = Returns r ->
  (r_status r = "optimal"%string \/ r_status r = "optimal_inaccurate"%string) /\
  row_total (r_allocations r) 0 < 1#10 /\
  19#10 < row_total (r_allocations r) 1.
Proof.
  intros Heps Hsmall Hopt Hr.
  destruct (returned_call cp unequal r unequal_wf Hr) as (_ & out & Hout).
  apply (on_built_program_elim _ _ _ _ unequal_wf Hout) in Hopt.
  pose proof (sound_feasible_well_shaped _ _ _ (sound_optimal_feasible _ _ _ Hopt)) as Hsh.
  destruct (call_returns_inv cp unequal out r unequal_wf Hout Hsh Hr) as [Hst ->].
  cbn [r_status r_allocations].
  split; [apply is_success_iff; exact Hst|].
  destruct (Hopt Hst) as [Hfeas Hbest].
  set (s := primal out) in *.
  pose proof (Hbest unequal_optimum (floor_value s) (200#101)
                    scenario3_feasible eq_refl eq_refl) as Hfl.
  apply (feasible_within_meaning eps unequal s unequal_wf) in Hfeas.
  destruct Hfeas as (Hs & _ & [_ Hc Hf]).
  pose proof (Hc 0%nat ltac:(cbn; lia)) as C0.
  pose proof (Hc 1%nat ltac:(cbn; lia)) as C1.
  pose proof (Hf 1%nat ltac:(cbn; lia)) as F1.
  unfold column_total, utility, row_total in *. rewrite Hs in *.
  cbn [unequal np_array shape fst snd length hd big_sum] in *.
  change (entry unequal 1 0) with 1 in F1.
  change (entry unequal 1 1) with 1 in F1.
  split; lra.
Qed.

Lemma C8_high_valuer_gets_little_witness :
  (r_status scenario3_result = "optimal"%string \/
   r_status scenario3_result = "optimal_inaccurate"%string) /\
  row_total (r_allocations scenario3_result) 0 < 1#10 /\
  19#10 < row_total (r_allocations scenario3_result) 1.
Proof.
  apply (C8_high_valuer_gets_little (1#1000000) (mock scenario3_solver) scenario3_result).
  - vm_compute. discriminate.
  - vm_compute. discriminate.
  - apply scenario3_solver_sound. vm_compute. discriminate.
  - vm_compute. reflexivity.
Defined.

(** ** C9: what is rejected and what is not *)









(** With the shape check of the mocks, the empty matrices are refused
    whatever the solver would have answered. *)
Example empty_matrices_refused :
  egalitarian_division (mock scenario3_solver) no_agents =
    Raises (ValueError "Invalid dimensions") /\
  egalitarian_division (mock scenario3_solver) no_resources =
    Raises (ValueError "Invalid dimensions").
Proof. split; reflexivity. Qed.

(** ** C10: one exception for every failing status *)

(** C10, counterexample.  When the solver breaks down, [solve()] raises
    its own exception at line 75 and line 77 is never reached: the call
    raises the SolverError, not the ValueError that a status of infeasible
    yields, so a solver error is told apart from the other failures. *)
Lemma C10_counterexample :
  egalitarian_division crashing unequal =
    Raises (SolverError "Solver failed. Try another solver.") /\
  egalitarian_division (mock (failing_solver "infeasible")) unequal =
    Raises (ValueError "Fair division impossible with given valuations") /\
  egalitarian_division crashing unequal <>
    egalitarian_division (mock (failing_solver "infeasible")) unequal.
Proof.
  split; [vm_compute; reflexivity|]. split; [vm_compute; reflexivity|].
  vm_compute. discriminate.
Qed.

(** C10 (as amended). Whatever status other than optimal and
    optimal_inaccurate a completed solve reports (infeasible, unbounded or
    any other), the call raises the same exception: a ValueError whose
    message is the fixed text of line 78, in which the status does not
    occur.  A failure that makes [solve()] itself raise is not among them:
    that exception leaves the call unchanged. *)
Theorem C10_same_error_for_failing_statuses (cp : cvxpy)
    (v : ndarray) (p : Problem) :
  wf_ndarray v ->
  cp_Variable cp (shape v) = Returns tt ->
  build_problem v = Returns p ->
  (forall out, cp_solve cp p = Returns out ->
     solver_status out <> "optimal"%string ->
     solver_status out <> "optimal_inaccurate"%string ->
     egalitarian_division cp v =
       Raises (ValueError "Fair division impossible with given valuations")) /\
  (forall e, cp_solve cp p = Raises e -> egalitarian_division cp v = Raises e).
Proof.
  intros Hwf Hc Hp. rewrite (build_problem_returns v Hwf) in Hp.
  injection Hp as <-. split.
  - intros out Hout H1 H2. apply (call_failure cp v out Hwf Hc Hout).
    destruct (is_success (solver_status out)) eqn:Hst; [|reflexivity].
    apply is_success_iff in Hst. tauto.
  - intros e He. apply (call_solve_raises cp v e Hwf Hc He).
Qed.

Lemma C10_same_error_for_failing_statuses_witness :
  ((forall out, cp_solve (mock (failing_solver "infeasible")) (the_program unequal)
                = Returns out ->
      solver_status out <> "optimal"%string ->
      solver_status out <> "optimal_inaccurate"%string ->
      egalitarian_division (mock (failing_solver "infeasible")) unequal =
        Raises (ValueError "Fair division impossible with given valuations")) /\
   (forall e, cp_solve (mock (failing_solver "infeasible")) (the_program unequal)
              = Raises e ->
      egalitarian_division (mock (failing_solver "infeasible")) unequal = Raises e)) /\
  egalitarian_division (mock (failing_solver "unbounded")) unequal =
    egalitarian_division (mock (failing_solver "infeasible")) unequal.
Proof.
  split.
  - apply (C10_same_error_for_failing_statuses (mock (failing_solver "infeasible"))
             unequal (the_program unequal)).
    + apply wf_ndarrayb_spec. vm_compute. reflexivity.
    + vm_compute. reflexivity.
    + vm_compute. reflexivity.
  - vm_compute. reflexivity.
Defined.

(** * Further properties of [egalitarian_division] *)

(** ** What a successful call gives *)

Lemma sound_call (eps : Q) (cp : cvxpy) (v : ndarray)
    (r : Result) :
  wf_ndarray v ->
  on_built_program (sound_optimal eps) cp v ->
  egalitarian_division cp v = Returns r ->
  exists s,
    r_min_utility r = floor_value s /\
    r_allocations r = alloc_value s /\
    r_utilities r = utilities_of (alloc_value s) v /\
    optimal_within eps (the_program v) s /\
    shape (alloc_value s) = shape v /\
    wf_ndarray (alloc_value s) /\
    spec_program eps v s.
Proof.
  intros Hwf Hopt Hr.
  destruct (returned_call cp v r Hwf Hr) as (_ & out & Hout).
  apply (on_built_program_elim _ _ _ _ Hwf Hout) in Hopt.
  pose proof (sound_feasible_well_shaped _ _ _ (sound_optimal_feasible _ _ _ Hopt)) as Hsh.
  destruct (call_returns_inv cp v out r Hwf Hout Hsh Hr) as [Hst ->].
  exists (primal out). cbn.
  pose proof (Hopt Hst) as Ho. pose proof Ho as [Hfeas _].
  apply (feasible_within_meaning eps v _ Hwf) in Hfeas.
  destruct Hfeas as (Hs & Hw & Hp). repeat (split; [first [reflexivity|assumption]|]).
  exact Hp.
Qed.

Lemma optimum_beats (eps : Q) (v : ndarray) (s s' : assignment) :
  optimal_within eps (the_program v) s -> feasible (the_program v) s' ->
  floor_value s' <= floor_value s + eps.
Proof. intros [_ Hbest] Hs'. apply (Hbest s'); [exact Hs'|reflexivity|reflexivity]. Qed.

Lemma valid_allocation_feasible (v a : ndarray) (f : Q) :
  wf_ndarray v -> valid_allocation v a ->
  (forall i, (i < fst (shape v))%nat -> f <= utility a v i) ->
  feasible (the_program v) (mk_assignment a f).
Proof.
  intros Hwf (Hs & Hw & Hb & Hc) Hf.
  apply (feasible_within_meaning 0 v _ Hwf). cbn [alloc_value].
  split; [exact Hs|]. split; [exact Hw|].
  apply spec_program_exact. constructor; cbn [alloc_value floor_value]; assumption.
Qed.

Lemma minimum_utilities_le (a v : ndarray) (i : nat) :
  wf_ndarray v -> wf_ndarray a -> shape a = shape v ->
  (i < fst (shape v))%nat -> minimum (utilities_of a v) <= utility a v i.
Proof.
  intros Hwf Hw Hs Hi.
  destruct (utility_in_utilities_of a v i Hwf Hw Hs Hi) as (x & Hx & Ex).
  rewrite <- Ex. apply minimum_le. exact Hx.
Qed.

Lemma all_to_first_valid (v : ndarray) :
  wf_ndarray v -> (1 <= fst (shape v))%nat ->
  valid_allocation v (all_to_first (fst (shape v)) (snd (shape v))).
Proof.
  intros Hwf Hn. split; [cbn; destruct (shape v); reflexivity|].
  split; [apply all_to_first_wf; exact Hn|]. split.
  - intros i j _ Hj. apply entry_all_to_first_range. exact Hj.
  - intros j Hj. unfold column_total. cbn [all_to_first shape fst].
    destruct (fst (shape v)) as [|n] eqn:En; [lia|].
    rewrite big_sum_shift.
    change (mk_ndarray (S n, snd (shape v))
              (repeat 1 (snd (shape v)) :: repeat (repeat 0 (snd (shape v))) (S n - 1)))
      with (all_to_first (S n) (snd (shape v))).
    rewrite entry_all_to_first_0 by exact Hj.
    rewrite (big_sum_ext _ (fun _ => 0)).
    + rewrite big_sum_zero. lra.
    + intros i _. rewrite entry_all_to_first_S. reflexivity.
Qed.

(** ** X1: no allocation does better *)

(** X1. The returned min_utility is optimal: for every allocation of the
    resources (entries in [0,1], columns summing to 1), the least utility
    that allocation gives is at most the returned min_utility, up to the
    accuracy [eps] of the solver. *)
Theorem X1_no_allocation_does_better (eps : Q)
    (cp : cvxpy) (v : ndarray) (r : Result) (a : ndarray) :
  wf_ndarray v ->
  on_built_program (sound_optimal eps) cp v ->
  egalitarian_division cp v = Returns r ->
  valid_allocation v a ->
  minimum (utilities_of a v) <= r_min_utility r + eps.
Proof.
  intros Hwf Hopt Hr Ha.
  destruct (sound_call eps cp v r Hwf Hopt Hr) as (s & -> & _ & _ & Ho & _).
  pose proof Ha as (Hs & Hw & _).
  apply (optimum_beats eps v s (mk_assignment a (minimum (utilities_of a v))) Ho).
  apply valid_allocation_feasible; [exact Hwf|exact Ha|].
  intros i Hi. apply minimum_utilities_le; assumption.
Qed.

Lemma X1_no_allocation_does_better_witness :
  minimum (utilities_of (all_to_first 2 2) unequal)
    <= r_min_utility scenario3_result + 0.
Proof.
  apply (X1_no_allocation_does_better 0 (mock scenario3_solver) unequal
           scenario3_result (all_to_first 2 2)).
  - apply wf_ndarrayb_spec. vm_compute. reflexivity.
  - apply scenario3_solver_sound. vm_compute. discriminate.
  - vm_compute. reflexivity.
  - apply (all_to_first_valid unequal).
    + apply wf_ndarrayb_spec. vm_compute. reflexivity.
    + vm_compute. lia.
Defined.

(** ** X2: the range of the floor *)

Lemma utility_le_total (eps : Q) (v a : ndarray) (i : nat) :
  nonnegative v ->
  (forall j, (j < snd (shape v))%nat -> entry a i j <= 1 + eps) ->
  utility a v i <= (1 + eps) * row_total v i.
Proof.
  intros Hv Ha. unfold utility, row_total. rewrite <- big_sum_scale.
  apply big_sum_le. intros j Hj. apply Qmult_le_compat_r.
  - apply Ha. exact Hj.
  - apply entry_nonneg. exact Hv.
Qed.

(** X2. On a valid matrix the returned min_utility is never negative and
    never exceeds any single agent's total valuation (the sum of that
    agent's row), up to the accuracy [eps] of the solver. *)
Theorem X2_floor_range (eps : Q) (cp : cvxpy)
    (v : ndarray) (r : Result) :
  0 <= eps ->
  valid_valuation v ->
  on_built_program (sound_optimal eps) cp v ->
  egalitarian_division cp v = Returns r ->
  - eps <= r_min_utility r /\
  forall i, (i < fst (shape v))%nat ->
    r_min_utility r <= (1 + eps) * row_total v i + eps.
Proof.
  intros Heps Hv Hopt Hr. pose proof Hv as (Hwf & _ & _ & Hnn).
  destruct (sound_call eps cp v r Hwf Hopt Hr)
    as (s & -> & _ & _ & Ho & _ & _ & Hp).
  split.
  - pose proof (optimum_beats eps v s _ Ho (program_feasible v Hv)) as H.
    cbn [floor_value] in H. lra.
  - intros i Hi. pose proof (sp_floor _ _ _ Hp i Hi) as Hf.
    assert (utility (alloc_value s) v i <= (1 + eps) * row_total v i).
    { apply utility_le_total; [exact Hnn|]. intros j Hj.
      apply (sp_bounds _ _ _ Hp i j Hi Hj). }
    lra.
Qed.

Lemma X2_floor_range_witness :
  - 0 <= r_min_utility scenario3_result /\
  forall i, (i < 2)%nat ->
    r_min_utility scenario3_result <= (1 + 0) * row_total unequal i + 0.
Proof.
  apply (X2_floor_range 0 (mock scenario3_solver) unequal scenario3_result).
  - vm_compute. discriminate.
  - apply valid_valuationb_spec. vm_compute. reflexivity.
  - apply scenario3_solver_sound. vm_compute. discriminate.
  - vm_compute. reflexivity.
Defined.

(** ** X3: every agent gets a proportional share of the worst-off total *)

Lemma Qnat_inv_range (n : nat) : (1 <= n)%nat -> 0 <= / Qnat n <= 1.
Proof.
  intros Hn. pose proof (Qnat_pos n Hn) as HN. split.
  - apply Qinv_le_0_compat. lra.
  - assert (E : / Qnat n == 1 / Qnat n)
      by (unfold Qdiv; rewrite Qmult_1_l; reflexivity).
    rewrite E. apply Qle_shift_div_r; lra.
Qed.

Lemma equal_split_valid (v : ndarray) :
  (1 <= fst (shape v))%nat ->
  valid_allocation v (equal_split (fst (shape v)) (snd (shape v))).
Proof.
  intros Hn. pose proof (Qnat_pos _ Hn) as HN.
  split; [unfold equal_split; cbn; destruct (shape v); reflexivity|].
  split; [apply tabulate_wf|]. split.
  - intros i j Hi Hj. unfold equal_split.
    rewrite (entry_tabulate _ _ (fun _ _ => / Qnat (fst (shape v)))) by assumption.
    apply Qnat_inv_range. exact Hn.
  - intros j Hj. unfold column_total.
    change (fst (shape (equal_split (fst (shape v)) (snd (shape v)))))
      with (fst (shape v)).
    rewrite (big_sum_ext _ (fun _ => / Qnat (fst (shape v)))).
    + rewrite big_sum_const. apply Qmult_inv_r. lra.
    + intros i Hi. unfold equal_split.
      rewrite (entry_tabulate _ _ (fun _ _ => / Qnat (fst (shape v)))) by assumption.
      reflexivity.
Qed.

Lemma equal_split_utility (v : ndarray) (i : nat) :
  (i < fst (shape v))%nat ->
  utility (equal_split (fst (shape v)) (snd (shape v))) v i ==
  row_total v i / Qnat (fst (shape v)).
Proof.
  intros Hi. unfold utility, row_total, Qdiv.
  rewrite Qmult_comm, <- big_sum_scale. apply big_sum_ext.
  intros j Hj. unfold equal_split.
  rewrite (entry_tabulate _ _ (fun _ _ => / Qnat (fst (shape v)))) by assumption.
  reflexivity.
Qed.

Lemma proportional_floor_le (v : ndarray) (i : nat) :
  (i < fst (shape v))%nat ->
  proportional_floor v <= row_total v i / Qnat (fst (shape v)).
Proof.
  intros Hi. unfold proportional_floor. apply minimum_le.
  apply (in_map (fun i => row_total v i / Qnat (fst (shape v)))).
  apply in_seq. lia.
Qed.

(** X3. With n agents, the returned min_utility is at least the least
    n-th part of an agent's total valuation (what the worst-off agent would
    get if every resource were split equally), and so is every entry of
    the returned utilities, up to the accuracy [eps] of the solver. *)
Theorem X3_proportional_share (eps : Q) (cp : cvxpy)
    (v : ndarray) (r : Result) :
  wf_ndarray v ->
  (1 <= fst (shape v))%nat ->
  on_built_program (sound_optimal eps) cp v ->
  egalitarian_division cp v = Returns r ->
  proportional_floor v <= r_min_utility r + eps /\
  forall k, (k < fst (shape v))%nat ->
    proportional_floor v <= nth k (r_utilities r) 0 + eps + eps.
Proof.
  intros Hwf Hn Hopt Hr.
  destruct (sound_call eps cp v r Hwf Hopt Hr)
    as (s & -> & _ & -> & Ho & Hs & Hw & Hp).
  assert (H : proportional_floor v <= floor_value s + eps).
  { apply (optimum_beats eps v s
             (mk_assignment (equal_split (fst (shape v)) (snd (shape v)))
                            (proportional_floor v)) Ho).
    apply valid_allocation_feasible; [exact Hwf|apply equal_split_valid; exact Hn|].
    intros i Hi. rewrite equal_split_utility by exact Hi.
    apply proportional_floor_le. exact Hi. }
  split; [exact H|]. intros k Hk.
  rewrite (nth_utilities_of _ v k Hwf Hw Hs Hk).
  pose proof (sp_floor _ _ _ Hp k Hk). lra.
Qed.

Lemma X3_proportional_share_witness :
  proportional_floor unequal <= r_min_utility scenario3_result + 0 /\
  forall k, (k < 2)%nat ->
    proportional_floor unequal <= nth k (r_utilities scenario3_result) 0 + 0 + 0.
Proof.
  apply (X3_proportional_share 0 (mock scenario3_solver) unequal scenario3_result).
  - apply wf_ndarrayb_spec. vm_compute. reflexivity.
  - vm_compute. lia.
  - apply scenario3_solver_sound. vm_compute. discriminate.
  - vm_compute. reflexivity.
Defined.

(** ** X4: with positive valuations everybody gets the floor *)

(** X4. When every valuation is strictly positive and the solver is exact,
    every entry of the returned utilities equals the returned min_utility:
    no agent is left better off than the worst-off one. *)
Theorem X4_equal_utilities (cp : cvxpy)
    (v : ndarray) (r : Result) :
  valid_valuation v ->
  positive v ->
  on_built_program (sound_optimal 0) cp v ->
  egalitarian_division cp v = Returns r ->
  forall i, (i < fst (shape v))%nat ->
    nth i (r_utilities r) 0 == r_min_utility r.
Proof.
  intros Hv Hpos Hopt Hr i Hi. pose proof Hv as (Hwf & _).
  destruct (sound_call 0 cp v r Hwf Hopt Hr)
    as (s & -> & _ & -> & Ho & Hs & Hw & _).
  rewrite (nth_utilities_of _ v i Hwf Hw Hs Hi).
  apply exact_optimum_tight; assumption.
Qed.

Lemma X4_equal_utilities_witness :
  nth 0 (r_utilities scenario3_result) 0 == r_min_utility scenario3_result /\
  nth 1 (r_utilities scenario3_result) 0 == r_min_utility scenario3_result.
Proof.
  assert (H : forall i, (i < 2)%nat ->
            nth i (r_utilities scenario3_result) 0 == r_min_utility scenario3_result).
  { apply (X4_equal_utilities (mock scenario3_solver) unequal scenario3_result).
    - apply valid_valuationb_spec. vm_compute. reflexivity.
    - exact unequal_positive.
    - apply scenario3_solver_sound. vm_compute. discriminate.
    - vm_compute. reflexivity. }
  split; apply H; lia.
Defined.

(** ** X5: an agent who values nothing pins the floor at zero *)

(** X5. If some agent values every resource at 0 (the other entries being
    non-negative), the returned min_utility is 0 up to the accuracy [eps]
    of the solver: the call succeeds with a degenerate optimum instead of
    failing. *)
Theorem X5_indifferent_agent_zero_floor (eps : Q)
    (cp : cvxpy) (v : ndarray) (r : Result) (k : nat) :
  0 <= eps ->
  valid_valuation v ->
  (k < fst (shape v))%nat ->
  (forall j, (j < snd (shape v))%nat -> entry v k j == 0) ->
  on_built_program (sound_optimal eps) cp v ->
  egalitarian_division cp v = Returns r ->
  Qabs (r_min_utility r) <= eps.
Proof.
  intros Heps Hv Hk Hz Hopt Hr. pose proof Hv as (Hwf & _).
  destruct (sound_call eps cp v r Hwf Hopt Hr)
    as (s & -> & _ & _ & Ho & _ & _ & Hp).
  pose proof (optimum_beats eps v s _ Ho (program_feasible v Hv)) as Hlow.
  cbn [floor_value] in Hlow.
  pose proof (sp_floor _ _ _ Hp k Hk) as Hup.
  assert (E : utility (alloc_value s) v k == 0).
  { unfold utility. rewrite (big_sum_ext _ (fun _ => 0)).
    - apply big_sum_zero.
    - intros j Hj. rewrite (Hz j Hj). lra. }
  rewrite E in Hup. apply Qabs_Qle_condition. split; lra.
Qed.

Lemma X5_indifferent_agent_zero_floor_witness :
  Qabs (r_min_utility tie_result_before) <= 0.
Proof.
  apply (X5_indifferent_agent_zero_floor 0 (mock tie_solver) indifferent
           tie_result_before 1).
  - vm_compute. discriminate.
  - apply valid_valuationb_spec. vm_compute. reflexivity.
  - vm_compute. lia.
  - intros j Hj. destruct j as [|[|j]]; [| |exfalso; cbn in Hj; lia];
      vm_compute; reflexivity.
  - exact tie_solver_sound_before.
  - vm_compute. reflexivity.
Defined.

(** ** X6: the floor does not depend on the solver *)

Lemma floors_agree_upto (eps : Q) (v : ndarray) (s1 s2 : assignment) :
  0 <= eps -> valid_valuation v ->
  shape (alloc_value s1) = shape v -> spec_program eps v s1 ->
  optimal_within eps (the_program v) s2 ->
  floor_value s1 - eps <= (floor_value s2 + eps) * slack_factor eps (fst (shape v)).
Proof.
  intros Heps Hv Hs Hp Ho.
  pose proof (slack_factor_pos eps v Heps Hv) as HD.
  assert (H : (floor_value s1 - eps) / slack_factor eps (fst (shape v))
              <= floor_value s2 + eps).
  { apply (optimum_beats eps v s2
             (mk_assignment (repair eps (alloc_value s1))
                ((floor_value s1 - eps) / slack_factor eps (fst (shape v)))) Ho).
    apply (repair_feasible eps v s1 Heps Hv Hs Hp). intros i Hi.
    pose proof (sp_floor _ _ _ Hp i Hi). lra. }
  rewrite <- (Qmult_div_r (floor_value s1 - eps)
                          (slack_factor eps (fst (shape v)))) at 1 by lra.
  rewrite Qmult_comm. apply Qmult_le_compat_r; lra.
Qed.

(** X6. The returned min_utility is a property of the valuation matrix,
    not of the solver: two solvers that are both accurate to [eps] return
    floors that differ only by the slack of [eps], and two exact solvers
    return the same min_utility (their allocations may differ). *)
Theorem X6_floor_is_solver_independent (eps : Q)
    (cp1 cp2 : cvxpy) (v : ndarray) (r1 r2 : Result) :
  0 <= eps ->
  valid_valuation v ->
  on_built_program (sound_optimal eps) cp1 v ->
  on_built_program (sound_optimal eps) cp2 v ->
  egalitarian_division cp1 v = Returns r1 ->
  egalitarian_division cp2 v = Returns r2 ->
  r_min_utility r1 - eps
    <= (r_min_utility r2 + eps) * slack_factor eps (fst (shape v)) /\
  r_min_utility r2 - eps
    <= (r_min_utility r1 + eps) * slack_factor eps (fst (shape v)) /\
  (eps == 0 -> r_min_utility r1 == r_min_utility r2).
Proof.
  intros Heps Hv Ho1 Ho2 Hr1 Hr2. pose proof Hv as (Hwf & _).
  destruct (sound_call eps cp1 v r1 Hwf Ho1 Hr1)
    as (s1 & -> & _ & _ & Hopt1 & Hs1 & _ & Hp1).
  destruct (sound_call eps cp2 v r2 Hwf Ho2 Hr2)
    as (s2 & -> & _ & _ & Hopt2 & Hs2 & _ & Hp2).
  pose proof (floors_agree_upto eps v s1 s2 Heps Hv Hs1 Hp1 Hopt2) as H12.
  pose proof (floors_agree_upto eps v s2 s1 Heps Hv Hs2 Hp2 Hopt1) as H21.
  split; [exact H12|]. split; [exact H21|].
  intros E. unfold slack_factor in H12, H21. rewrite E in H12, H21.
  apply Qle_antisym; lra.
Qed.

Lemma other_tie_solver_sound :
  on_built_program (sound_optimal 0) (mock other_tie_solver) indifferent.
Proof.
  apply on_built_program_mock; [exact indifferent_wf|]. intros _.
  change (primal (other_tie_solver (the_program indifferent))) with all_to_agent1.
  apply tie_optimal; try reflexivity; [exact indifferent_wf|].
  check_feasible indifferent indifferent_wf.
Qed.

Lemma X6_floor_is_solver_independent_witness :
  r_min_utility tie_result_before - 0
    <= (r_min_utility tie_result_after + 0) * slack_factor 0 2 /\
  r_min_utility tie_result_after - 0
    <= (r_min_utility tie_result_before + 0) * slack_factor 0 2 /\
  (0 == 0 -> r_min_utility tie_result_before == r_min_utility tie_result_after).
Proof.
  apply (X6_floor_is_solver_independent 0 (mock tie_solver) (mock other_tie_solver) indifferent
           tie_result_before tie_result_after).
  - vm_compute. discriminate.
  - apply valid_valuationb_spec. vm_compute. reflexivity.
  - exact tie_solver_sound_before.
  - exact other_tie_solver_sound.
  - vm_compute. reflexivity.
  - vm_compute. reflexivity.
Defined.

(** ** X7: rescaling the valuations rescales the floor *)

Lemma scale_wf (c : Q) (v : ndarray) : wf_ndarray v -> wf_ndarray (scale c v).
Proof.
  intros [Hn Hm]. split; cbn [scale rows shape].
  - rewrite length_map. exact Hn.
  - apply Forall_map. eapply Forall_impl; [|exact Hm].
    intros r Hr. cbn beta. rewrite length_map. exact Hr.
Qed.

Lemma entry_scale (c : Q) (v : ndarray) (i j : nat) :
  wf_ndarray v -> (i < fst (shape v))%nat -> (j < snd (shape v))%nat ->
  entry (scale c v) i j = c * entry v i j.
Proof.
  intros Hwf Hi Hj. destruct (wf_row v i Hwf Hi) as (r & _ & En & Hl).
  unfold entry, scale. cbn [rows].
  change (@nil Q) with (map (Qmult c) []) at 1.
  rewrite (map_nth (map (Qmult c)) (rows v) [] i), En.
  rewrite (nth_indep _ 0 (c * 0)) by (rewrite length_map, Hl; exact Hj).
  apply (map_nth (Qmult c)).
Qed.

Lemma utility_scale (c : Q) (a v : ndarray) (i : nat) :
  wf_ndarray v -> (i < fst (shape v))%nat ->
  utility a (scale c v) i == c * utility a v i.
Proof.
  intros Hwf Hi. unfold utility. cbn [scale shape].
  rewrite <- big_sum_scale. apply big_sum_ext. intros j Hj.
  rewrite entry_scale by assumption. lra.
Qed.

Lemma feasible_scale (c : Q) (v : ndarray) (s : assignment) :
  wf_ndarray v -> 0 <= c ->
  feasible (the_program v) s ->
  feasible (the_program (scale c v))
           (mk_assignment (alloc_value s) (c * floor_value s)).
Proof.
  intros Hwf Hc Hs.
  apply (feasible_within_meaning 0 v s Hwf) in Hs. destruct Hs as (Hs & Hw & Hp).
  apply (feasible_within_meaning 0 _ _ (scale_wf c v Hwf)). cbn [alloc_value].
  split; [exact Hs|]. split; [exact Hw|].
  apply spec_program_exact in Hp. apply spec_program_exact.
  destruct Hp as [Hb Hcol Hf]. constructor; cbn [alloc_value floor_value scale shape].
  - exact Hb.
  - exact Hcol.
  - intros i Hi. rewrite utility_scale by assumption.
    rewrite !(Qmult_comm c). apply Qmult_le_compat_r; [apply Hf; exact Hi|exact Hc].
Qed.

Lemma feasible_unscale (c : Q) (v : ndarray) (s : assignment) :
  wf_ndarray v -> 0 < c ->
  feasible (the_program (scale c v)) s ->
  feasible (the_program v) (mk_assignment (alloc_value s) (floor_value s / c)).
Proof.
  intros Hwf Hc Hs.
  apply (feasible_within_meaning 0 _ s (scale_wf c v Hwf)) in Hs.
  destruct Hs as (Hs & Hw & Hp).
  apply (feasible_within_meaning 0 v _ Hwf). cbn [alloc_value].
  split; [exact Hs|]. split; [exact Hw|].
  apply spec_program_exact in Hp. apply spec_program_exact.
  destruct Hp as [Hb Hcol Hf]. cbn [scale shape] in Hb, Hcol, Hf.
  constructor; cbn [alloc_value floor_value].
  - exact Hb.
  - exact Hcol.
  - intros i Hi. specialize (Hf i Hi). rewrite utility_scale in Hf by assumption.
    apply Qle_shift_div_r; [exact Hc|]. rewrite Qmult_comm. exact Hf.
Qed.

Lemma optimal_scale (c : Q) (v : ndarray) (s : assignment) :
  wf_ndarray v -> 0 < c ->
  optimal_within 0 (the_program v) s ->
  optimal_within 0 (the_program (scale c v))
                 (mk_assignment (alloc_value s) (c * floor_value s)).
Proof.
  intros Hwf Hc Ho. pose proof Ho as [Hfeas _]. split.
  - apply feasible_scale; [exact Hwf|lra|exact Hfeas].
  - intros s' q q' Hs' Hq Hq'. rewrite objective_value_program in Hq, Hq'.
    injection Hq as <-. injection Hq' as <-. cbn [floor_value].
    pose proof (optimum_beats 0 v s _ Ho (feasible_unscale c v s' Hwf Hc Hs')) as H.
    cbn [floor_value] in H.
    assert (E : c * (floor_value s' / c) == floor_value s')
      by (apply Qmult_div_r; lra).
    assert (c * (floor_value s' / c) <= c * (floor_value s + 0)).
    { rewrite !(Qmult_comm c). apply Qmult_le_compat_r; lra. }
    lra.
Qed.

(** X7. Multiplying every valuation by the same factor [c > 0] multiplies
    the min_utility returned by an exact solver by [c]: the result does
    not depend on the unit in which values are expressed. *)
Theorem X7_scaling_valuations (c : Q) (cp : cvxpy)
    (v : ndarray) (r r' : Result) :
  wf_ndarray v ->
  0 < c ->
  on_built_program (sound_optimal 0) cp v ->
  on_built_program (sound_optimal 0) cp (scale c v) ->
  egalitarian_division cp v = Returns r ->
  egalitarian_division cp (scale c v) = Returns r' ->
  r_min_utility r' == c * r_min_utility r.
Proof.
  intros Hwf Hc Ho Ho' Hr Hr'.
  destruct (sound_call 0 cp v r Hwf Ho Hr) as (s & -> & _ & _ & Hopt & _).
  destruct (sound_call 0 cp _ r' (scale_wf c v Hwf) Ho' Hr')
    as (s' & -> & _ & _ & Hopt' & _).
  pose proof Hopt as [Hfeas _]. pose proof Hopt' as [Hfeas' _].
  pose proof (optimum_beats 0 _ s' _ Hopt'
                (feasible_scale c v s Hwf (Qlt_le_weak _ _ Hc) Hfeas)) as H1.
  pose proof (optimum_beats 0 v s _ Hopt (feasible_unscale c v s' Hwf Hc Hfeas')) as H2.
  cbn [floor_value] in H1, H2.
  assert (E : c * (floor_value s' / c) == floor_value s')
    by (apply Qmult_div_r; lra).
  assert (c * (floor_value s' / c) <= c * (floor_value s + 0)).
  { rewrite !(Qmult_comm c). apply Qmult_le_compat_r; lra. }
  apply Qle_antisym; lra.
Qed.

Lemma doubled_solver_sound_before :
  on_built_program (sound_optimal 0) (mock doubled_solver) unequal.
Proof.
  apply on_built_program_mock; [exact unequal_wf|]. intros _.
  change (primal (doubled_solver (the_program unequal))) with unequal_optimum.
  apply scenario3_optimal. lra.
Qed.

Lemma doubled_solver_sound_after :
  on_built_program (sound_optimal 0) (mock doubled_solver) (scale 2 unequal).
Proof.
  apply on_built_program_mock; [apply scale_wf; exact unequal_wf|]. intros _.
  change (primal (doubled_solver (the_program (scale 2 unequal))))
    with (mk_assignment (alloc_value unequal_optimum)
                        (2 * floor_value unequal_optimum)).
  apply optimal_scale; [exact unequal_wf|lra|]. apply scenario3_optimal. lra.
Qed.

Lemma X7_scaling_valuations_witness :
  r_min_utility doubled_result == 2 * r_min_utility scenario3_result.
Proof.
  apply (X7_scaling_valuations 2 (mock doubled_solver) unequal
           scenario3_result doubled_result).
  - apply wf_ndarrayb_spec. vm_compute. reflexivity.
  - vm_compute. reflexivity.
  - exact doubled_solver_sound_before.
  - exact doubled_solver_sound_after.
  - vm_compute. reflexivity.
  - vm_compute. reflexivity.
Defined.

(** ** X8: a single agent *)

Lemma all_to_first_utility (v : ndarray) :
  utility (all_to_first (fst (shape v)) (snd (shape v))) v 0 == row_total v 0.
Proof.
  unfold utility, row_total. apply big_sum_ext. intros j Hj.
  rewrite entry_all_to_first_0 by exact Hj. lra.
Qed.

(** X8. With exactly one agent, the returned min_utility is that agent's
    total valuation, up to the accuracy [eps] of the solver; with an exact
    solver the floor and the agent's utility both equal the sum of the
    row. *)
Theorem X8_single_agent (eps : Q) (cp : cvxpy)
    (v : ndarray) (r : Result) :
  0 <= eps ->
  valid_valuation v ->
  fst (shape v) = 1%nat ->
  on_built_program (sound_optimal eps) cp v ->
  egalitarian_division cp v = Returns r ->
  row_total v 0 - eps <= r_min_utility r /\
  r_min_utility r <= (1 + eps) * row_total v 0 + eps /\
  (eps == 0 ->
   r_min_utility r == row_total v 0 /\
   nth 0 (r_utilities r) 0 == row_total v 0).
Proof.
  intros Heps Hv H1 Hopt Hr. pose proof Hv as (Hwf & Hn & _ & Hnn).
  destruct (sound_call eps cp v r Hwf Hopt Hr)
    as (s & -> & _ & -> & Ho & Hs & Hw & Hp).
  assert (Hlow : row_total v 0 <= floor_value s + eps).
  { apply (optimum_beats eps v s
             (mk_assignment (all_to_first (fst (shape v)) (snd (shape v)))
                            (row_total v 0)) Ho).
    apply valid_allocation_feasible;
      [exact Hwf|apply all_to_first_valid; assumption|].
    intros i Hi. assert (i = 0%nat) as -> by lia.
    rewrite all_to_first_utility. lra. }
  pose proof (sp_floor _ _ _ Hp 0%nat ltac:(lia)) as Hf.
  assert (Hup : utility (alloc_value s) v 0 <= (1 + eps) * row_total v 0).
  { apply utility_le_total; [exact Hnn|]. intros j Hj.
    apply (sp_bounds _ _ _ Hp 0%nat j ltac:(lia) Hj). }
  split; [lra|]. split; [lra|].
  intros E. rewrite E in Hlow, Hf, Hup.
  rewrite (nth_utilities_of _ v 0 Hwf Hw Hs ltac:(lia)).
  split; apply Qle_antisym; lra.
Qed.

Lemma single_wf : wf_ndarray single.
Proof. apply wf_ndarrayb_spec. reflexivity. Qed.

Lemma single_solver_sound :
  on_built_program (sound_optimal 0) (mock single_solver) single.
Proof.
  apply on_built_program_mock; [exact single_wf|]. intros _.
  change (primal (single_solver (the_program single)))
    with (mk_assignment (np_array [[1; 1]]) 8).
  split.
  - apply (feasible_within_meaning 0 single _ single_wf).
    split; [reflexivity|]. split; [apply wf_ndarrayb_spec; reflexivity|].
    apply spec_program_exact. constructor.
    + intros i j Hi Hj. destruct i; [|exfalso; cbn in Hi; lia].
      destruct j as [|[|j]]; [| |exfalso; cbn in Hj; lia];
        vm_compute; intuition discriminate.
    + intros j Hj. destruct j as [|[|j]]; [| |exfalso; cbn in Hj; lia];
        vm_compute; reflexivity.
    + intros i Hi. destruct i; [|exfalso; cbn in Hi; lia]. vm_compute. discriminate.
  - intros s' q q' Hs' Hq Hq'. rewrite objective_value_program in Hq, Hq'.
    injection Hq as <-. injection Hq' as <-.
    apply (feasible_within_meaning 0 single _ single_wf) in Hs'.
    destruct Hs' as (_ & _ & Hs'). apply spec_program_exact in Hs'.
    destruct Hs' as [Hb _ Hf].
    pose proof (Hb 0%nat 0%nat ltac:(cbn; lia) ltac:(cbn; lia)) as B0.
    pose proof (Hb 0%nat 1%nat ltac:(cbn; lia) ltac:(cbn; lia)) as B1.
    pose proof (Hf 0%nat ltac:(cbn; lia)) as F0.
    unfold utility in F0. change (shape single) with (1%nat, 2%nat) in F0.
    cbn [snd big_sum] in F0.
    change (entry single 0 0) with 3 in F0.
    change (entry single 0 1) with 5 in F0.
    cbn [floor_value]. lra.
Qed.

Lemma X8_single_agent_witness :
  row_total single 0 - 0 <= r_min_utility single_result /\
  r_min_utility single_result <= (1 + 0) * row_total single 0 + 0 /\
  (0 == 0 ->
   r_min_utility single_result == row_total single 0 /\
   nth 0 (r_utilities single_result) 0 == row_total single 0).
Proof.
  apply (X8_single_agent 0 (mock single_solver) single single_result).
  - vm_compute. discriminate.
  - apply valid_valuationb_spec. vm_compute. reflexivity.
  - vm_compute. reflexivity.
  - exact single_solver_sound.
  - vm_compute. reflexivity.
Defined.

(** ** X9: the shares handed out add up to the number of resources *)

Lemma big_sum_exchange (f : nat -> nat -> Q) (n m : nat) :
  big_sum (fun i => big_sum (fun j => f i j) m) n ==
  big_sum (fun j => big_sum (fun i => f i j) n) m.
Proof.
  induction n as [|n IH]; cbn [big_sum].
  - rewrite big_sum_zero. reflexivity.
  - rewrite big_sum_plus, IH. reflexivity.
Qed.

Lemma grand_total_columns (a : ndarray) :
  grand_total a == big_sum (fun j => column_total a j) (snd (shape a)).
Proof. unfold grand_total, row_total, column_total. apply big_sum_exchange. Qed.

(** X9. In every successful result the shares of all agents add up to the
    number of resources m, up to m times the accuracy [eps] of the solver:
    nothing is left unallocated and nothing is handed out twice. *)
Theorem X9_all_resources_handed_out (eps : Q)
    (cp : cvxpy) (v : ndarray) (r : Result) :
  wf_ndarray v ->
  on_built_program (sound_feasible eps) cp v ->
  egalitarian_division cp v = Returns r ->
  Qabs (grand_total (r_allocations r) - Qnat (snd (shape v)))
    <= Qnat (snd (shape v)) * eps.
Proof.
  intros Hwf Hs Hr.
  destruct (returned_call cp v r Hwf Hr) as (_ & out & Hout).
  apply (on_built_program_elim _ _ _ _ Hwf Hout) in Hs.
  pose proof (sound_feasible_well_shaped _ _ _ Hs) as Hsh.
  destruct (call_returns_inv cp v out r Hwf Hout Hsh Hr) as [Hst ->].
  cbn [r_allocations].
  apply (feasible_within_meaning eps v _ Hwf) in Hs; [|exact Hst].
  destruct Hs as (Hshape & _ & [_ Hc _]).
  rewrite grand_total_columns, Hshape.
  assert (Hup : big_sum (fun j => column_total
                  (alloc_value (primal out)) j) (snd (shape v))
                <= big_sum (fun _ => 1 + eps) (snd (shape v)))
    by (apply big_sum_le; intros j Hj; apply (Hc j Hj)).
  assert (Hlo : big_sum (fun _ => 1 - eps) (snd (shape v))
                <= big_sum (fun j => column_total
                     (alloc_value (primal out)) j) (snd (shape v))).
  { apply big_sum_le. intros j Hj. destruct (Hc j Hj). lra. }
  rewrite big_sum_const in Hup, Hlo.
  apply Qabs_Qle_condition. split; lra.
Qed.

Lemma X9_all_resources_handed_out_witness :
  Qabs (grand_total (r_allocations scenario3_result) - Qnat 2) <= Qnat 2 * 0.
Proof.
  apply (X9_all_resources_handed_out 0 (mock scenario3_solver) unequal scenario3_result).
  - apply wf_ndarrayb_spec. vm_compute. reflexivity.
  - apply scenario3_solver_feasible. vm_compute. discriminate.
  - vm_compute. reflexivity.
Defined.

(** ** X10: agents with the same valuations share equally *)

Lemma utilities_sum_identical (v a : ndarray) :
  shape a = shape v ->
  (forall i j, (i < fst (shape v))%nat -> (j < snd (shape v))%nat ->
               entry v i j == entry v 0 j) ->
  (forall j, (j < snd (shape v))%nat -> column_total a j == 1) ->
  big_sum (fun i => utility a v i) (fst (shape v)) == row_total v 0.
Proof.
  intros Hs Hsame Hc.
  rewrite (big_sum_ext _
    (fun i => big_sum (fun j => entry a i j * entry v 0 j) (snd (shape v)))).
  - rewrite big_sum_exchange. unfold row_total. apply big_sum_ext.
    intros j Hj.
    rewrite (big_sum_ext _ (fun i => entry v 0 j * entry a i j))
      by (intros; apply Qmult_comm).
    rewrite big_sum_scale.
    pose proof (Hc j Hj) as E. unfold column_total in E. rewrite Hs in E.
    rewrite E. lra.
  - intros i Hi. unfold utility. apply big_sum_ext. intros j Hj.
    rewrite (Hsame i j Hi Hj). reflexivity.
Qed.

(** X10. When all agents have the same valuations, an exact solver returns
    as min_utility exactly the n-th part of the common total valuation. *)
Theorem X10_identical_agents (cp : cvxpy)
    (v : ndarray) (r : Result) :
  wf_ndarray v ->
  (1 <= fst (shape v))%nat ->
  (forall i j, (i < fst (shape v))%nat -> (j < snd (shape v))%nat ->
               entry v i j == entry v 0 j) ->
  on_built_program (sound_optimal 0) cp v ->
  egalitarian_division cp v = Returns r ->
  r_min_utility r == row_total v 0 / Qnat (fst (shape v)).
Proof.
  intros Hwf Hn Hsame Hopt Hr.
  destruct (sound_call 0 cp v r Hwf Hopt Hr)
    as (s & -> & _ & _ & Ho & Hs & Hw & Hp).
  pose proof (Qnat_pos _ Hn) as HN.
  apply spec_program_exact in Hp. destruct Hp as [_ Hc Hf].
  apply Qle_antisym.
  - (* n times the floor is at most the sum of the utilities *)
    apply Qle_shift_div_l; [lra|].
    rewrite Qmult_comm, <- big_sum_const.
    rewrite <- (utilities_sum_identical v (alloc_value s) Hs Hsame Hc).
    apply big_sum_le. intros i Hi. apply Hf. exact Hi.
  - (* the equal split reaches it *)
    pose proof (optimum_beats 0 v s
                  (mk_assignment (equal_split (fst (shape v)) (snd (shape v)))
                                 (row_total v 0 / Qnat (fst (shape v)))) Ho) as H.
    cbn [floor_value] in H.
    assert (Hfeas : feasible (the_program v)
              (mk_assignment (equal_split (fst (shape v)) (snd (shape v)))
                             (row_total v 0 / Qnat (fst (shape v))))).
    { apply valid_allocation_feasible;
        [exact Hwf|apply equal_split_valid; exact Hn|].
      intros i Hi. rewrite equal_split_utility by exact Hi.
      assert (E : row_total v i == row_total v 0).
      { unfold row_total. apply big_sum_ext. intros j Hj. apply Hsame; assumption. }
      rewrite E. lra. }
    specialize (H Hfeas). lra.
Qed.

Lemma identical_wf : wf_ndarray identical.
Proof. apply wf_ndarrayb_spec. reflexivity. Qed.

Lemma identical_solver_sound :
  on_built_program (sound_optimal 0) (mock identical_solver) identical.
Proof.
  apply on_built_program_mock; [exact identical_wf|]. intros _.
  change (primal (identical_solver (the_program identical)))
    with (mk_assignment (np_array [[1#2; 1#2]; [1#2; 1#2]]) 3).
  split.
  - check_feasible identical identical_wf.
  - intros s' q q' Hs' Hq Hq'. rewrite objective_value_program in Hq, Hq'.
    injection Hq as <-. injection Hq' as <-.
    apply (feasible_within_meaning 0 identical _ identical_wf) in Hs'.
    destruct Hs' as (Hsh & _ & Hs'). apply spec_program_exact in Hs'.
    destruct Hs' as [_ Hc Hf].
    pose proof (Hc 0%nat ltac:(cbn; lia)) as C0.
    pose proof (Hc 1%nat ltac:(cbn; lia)) as C1.
    pose proof (Hf 0%nat ltac:(cbn; lia)) as F0.
    pose proof (Hf 1%nat ltac:(cbn; lia)) as F1.
    unfold column_total, utility in *. rewrite Hsh in *.
    change (shape identical) with (2%nat, 2%nat) in *.
    cbn [fst snd big_sum] in *.
    change (entry identical 0 0) with 2 in F0.
    change (entry identical 0 1) with 4 in F0.
    change (entry identical 1 0) with 2 in F1.
    change (entry identical 1 1) with 4 in F1.
    cbn [floor_value]. lra.
Qed.

Lemma X10_identical_agents_witness :
  r_min_utility identical_result == row_total identical 0 / Qnat 2.
Proof.
  apply (X10_identical_agents (mock identical_solver) identical identical_result).
  - apply wf_ndarrayb_spec. vm_compute. reflexivity.
  - vm_compute. lia.
  - intros i j Hi Hj.
    destruct i as [|[|i]]; [| |exfalso; cbn in Hi; lia];
      (destruct j as [|[|j]]; [| |exfalso; cbn in Hj; lia]);
      vm_compute; reflexivity.
  - exact identical_solver_sound.
  - vm_compute. reflexivity.
Defined.
